(** * Inverted-index construction and boolean/ranked retrieval

    A shallow embedding of [subProject1.py] (the two index builders
    [spimi] and [naive]) and of [subProject2.py] (the query operators
    [conjunction], [disjunction], [intersect], [queryTermRank] and the
    [bm25] scorer), followed by the properties the specification states
    about them.

    Conventions of the embedding:
    - a Python [int] that counts something (DocumentID, term frequency,
      pair count, occurrence budget) is a [nat];
    - a token is a [string]; Python compares [str] by code point, which
      is the order [String.compare] gives on byte strings;
    - the index dictionaries are [gmap string _]: no property below
      depends on their iteration order, so the final re-sorting of the
      keys in [spimi] is the identity on the finite map;
    - dictionaries whose insertion order reaches the output
      ([docFreq], [rankedResults]) are association lists;
    - a Python exception is a [Raise] in the [res] monad;
    - the wall-clock time the builders return next to the index and the
      JSON file they write are not modelled. *)

From Stdlib Require Import String Ascii Floats.
From Stdlib Require Uint63.
From stdpp Require Import base option list list_numbers sorting gmap strings.

Set Default Proof Using "Type".
Set Warnings "-clear-no-such-hyp".

(** ** Python exceptions as an error monad *)

Inductive exn : Set :=
| IndexError
| ZeroDivisionError.

Inductive res (A : Type) : Type :=
| Ok (a : A)
| Raise (e : exn).
Arguments Ok {A} a.
Arguments Raise {A} e.

#[global] Instance res_ret : MRet res := fun A a => Ok a.
#[global] Instance res_bind : MBind res := fun A B f m =>
  match m with
  | Ok a => f a
  | Raise e => Raise e
  end.

(** [l[-1]]: the last element, or [IndexError] on the empty list. *)
Definition py_last {A} (l : list A) : res A :=
  match last l with
  | Some x => Ok x
  | None => Raise IndexError
  end.

(** [sorted(l)] and [l.sort()] are stable and compare with [<] only:
    an element stays in front of a later one unless the later one is
    smaller.  [py_sorted ltb] is the stable insertion sort for the
    Python comparison [ltb].  Where [ltb] orders the elements of the
    list consistently ([asym_on] and [trans_on] below: ints, strings,
    tuples of them, and floats none of which is a NaN), every stable
    sort returns the same list, and [py_sorted] returns what Python
    returns.  Where it does not (floats with a NaN among them), what
    Python's merge sort returns depends on the runs it finds, and
    [py_sorted] returns the same elements but not always in the same
    arrangement; the properties of the order that are proved below
    carry the two hypotheses.
    [sorted(l, key=k, reverse=True)] keeps the order of equal keys too,
    so it is [py_sorted (fun x y => k y < k x)]. *)
Fixpoint py_insert {A} (ltb : A → A → bool) (x : A) (l : list A) : list A :=
  match l with
  | [] => [x]
  | y :: l' => if ltb y x then y :: py_insert ltb x l' else x :: y :: l'
  end.

Fixpoint py_sorted {A} (ltb : A → A → bool) (l : list A) : list A :=
  match l with
  | [] => []
  | x :: l' => py_insert ltb x (py_sorted ltb l')
  end.

(** [list(dict.fromkeys(l))]: the distinct elements of [l] in order of
    first occurrence; [seen] holds the keys already in the dictionary. *)
Fixpoint fromkeys_from {A} `{EqDecision A} (seen l : list A) : list A :=
  match l with
  | [] => []
  | x :: l' =>
      if decide (x ∈ seen) then fromkeys_from seen l'
      else x :: fromkeys_from (x :: seen) l'
  end.

Definition fromkeys {A} `{EqDecision A} (l : list A) : list A :=
  fromkeys_from [] l.

(** ** subProject1.py: the index builders *)

Module Builders.

(** [testCount and pairCount >= testCount] (spimi, lines 102 and 105):
    [None] and [0] are falsy. *)
Definition spimi_stop (testCount : option nat) (pairCount : nat) : bool :=
  match testCount with
  | None => false
  | Some 0 => false
  | Some n => n <=? pairCount
  end.

(** Lines 93-100 of [spimi]: one token of document [docID]. *)
Definition spimi_add (token : string) (docID : nat)
    (index : gmap string (list (nat * nat))) :
    res (gmap string (list (nat * nat))) :=
  match index !! token with
  | Some postingsList =>
      p ← py_last postingsList;
      if p.1 =? docID
      then Ok (<[token :=
                 <[pred (length postingsList) := (docID, p.2 + 1)]> postingsList]>
               index)
      else Ok (<[token := postingsList ++ [(docID, 1)]]> index)
  | None => Ok (<[token := [(docID, 1)]]> index)
  end.

(** The inner loop (lines 90-103): the tokens of one document. *)
Fixpoint spimi_tokens (testCount : option nat) (docID : nat)
    (tokens : list string) (index : gmap string (list (nat * nat)))
    (pairCount : nat) : res (gmap string (list (nat * nat)) * nat) :=
  match tokens with
  | [] => Ok (index, pairCount)
  | token :: rest =>
      let pairCount := S pairCount in
      index ← spimi_add token docID index;
      if spimi_stop testCount pairCount then Ok (index, pairCount)
      else spimi_tokens testCount docID rest index pairCount
  end.

(** The outer loop (lines 89-106). [docID += 1] runs before the second
    budget test, also when the budget cut the document short. *)
Fixpoint spimi_docs (testCount : option nat) (docID : nat)
    (tokensList : list (list string))
    (index : gmap string (list (nat * nat))) (pairCount : nat) :
    res (gmap string (list (nat * nat)) * nat) :=
  match tokensList with
  | [] => Ok (index, pairCount)
  | tokens :: rest =>
      st ← spimi_tokens testCount docID tokens index pairCount;
      let docID := S docID in
      if spimi_stop testCount st.2 then Ok st
      else spimi_docs testCount docID rest st.1 st.2
  end.

Definition spimi (tokensList : list (list string)) (testCount : option nat) :
    res (gmap string (list (nat * nat))) :=
  st ← spimi_docs testCount 1 tokensList ∅ 0;
  Ok st.1.

(** [testCount and len(F) == testCount] (naive, lines 154 and 157). *)
Definition naive_stop (testCount : option nat) (F : list (string * nat)) : bool :=
  match testCount with
  | None => false
  | Some 0 => false
  | Some n => length F =? n
  end.

(** The inner loop of the pair collection (lines 152-155). *)
Fixpoint naive_tokens (testCount : option nat) (docID : nat)
    (tokens : list string) (F : list (string * nat)) : list (string * nat) :=
  match tokens with
  | [] => F
  | token :: rest =>
      let F := F ++ [(token, docID)] in
      if naive_stop testCount F then F
      else naive_tokens testCount docID rest F
  end.

(** The outer loop of the pair collection (lines 151-158). *)
Fixpoint naive_docs (testCount : option nat) (docID : nat)
    (tokensList : list (list string)) (F : list (string * nat)) :
    list (string * nat) :=
  match tokensList with
  | [] => F
  | tokens :: rest =>
      let F := naive_tokens testCount docID tokens F in
      let docID := S docID in
      if naive_stop testCount F then F
      else naive_docs testCount docID rest F
  end.

(** [F] as it stands before [F.sort()]. *)
Definition naive_pairs (tokensList : list (list string))
    (testCount : option nat) : list (string * nat) :=
  naive_docs testCount 1 tokensList [].

(** Python's [<] on [(str, int)] tuples: first components first. *)
Definition pair_ltb (p q : string * nat) : bool :=
  match String.compare p.1 q.1 with
  | Lt => true
  | Eq => p.2 <? q.2
  | Gt => false
  end.

(** Lines 167-171 of [naive]: one sorted pair. *)
Definition naive_add (term : string) (docID : nat)
    (index : gmap string (list nat)) : res (gmap string (list nat)) :=
  match index !! term with
  | Some postingsList =>
      d ← py_last postingsList;
      if d =? docID then Ok index
      else Ok (<[term := postingsList ++ [docID]]> index)
  | None => Ok (<[term := [docID]]> index)
  end.

(** The grouping loop (lines 165-171). *)
Fixpoint naive_group (F : list (string * nat))
    (index : gmap string (list nat)) : res (gmap string (list nat)) :=
  match F with
  | [] => Ok index
  | p :: rest =>
      index ← naive_add p.1 p.2 index;
      naive_group rest index
  end.

Definition naive (tokensList : list (list string)) (testCount : option nat) :
    res (gmap string (list nat)) :=
  let F := naive_pairs tokensList testCount in
  let F := py_sorted pair_ltb F in
  let F := fromkeys F in
  naive_group F ∅.

End Builders.


(** ** subProject2.py: boolean combination and ranking *)

(** Insertion-ordered dictionaries keyed by DocumentID: [d.get(k)] and
    [d[k] = v], which overwrites in place or appends a new key. *)
Fixpoint dict_get {V} (k : nat) (d : list (nat * V)) : option V :=
  match d with
  | [] => None
  | (k', v) :: d' => if k' =? k then Some v else dict_get k d'
  end.

Fixpoint dict_set {V} (k : nat) (v : V) (d : list (nat * V)) : list (nat * V) :=
  match d with
  | [] => [(k, v)]
  | (k', v') :: d' => if k' =? k then (k, v) :: d' else (k', v') :: dict_set k v d'
  end.

(** Python's binary64 floats, left abstract: the operations [bm25]
    uses.  [of_int] is the conversion an [int] operand undergoes in
    mixed arithmetic, so [0.0] is [of_int 0]. *)
Class PyFloat (F : Type) := {
  of_int : nat → F;
  fadd : F → F → F;
  fsub : F → F → F;
  fmul : F → F → F;
  fdiv : F → F → F;
  flog : F → F;
  feqb : F → F → bool;
  fltb : F → F → bool;
}.

Module Query.

(** The value a boolean combination returns: bare DocumentIDs, or
    [(DocumentID, matchCount)] pairs after query-term ranking. *)
Inductive postings : Type :=
| Unranked (l : list nat)
| Ranked (l : list (nat * nat)).

(** [convertPostingsLists]: drop the term frequencies, keep [None]. *)
Definition convertPostingsLists
    (postingsLists : list (option (list (nat * nat)))) :
    list (option (list nat)) :=
  (fun postingsList : option (list (nat * nat)) =>
     (fun l => l.*1) <$> postingsList) <$> postingsLists.

(** [intersect]: the two indices [i] and [j] are the suffixes
    [pList1[i:]] and [pList2[j:]] still to be read. *)
Fixpoint intersect_loop (result pList1 pList2 : list nat) : list nat :=
  match pList1 with
  | [] => result
  | x :: rest1 =>
      (fix scan (result pList2 : list nat) : list nat :=
         match pList2 with
         | [] => result
         | y :: rest2 =>
             if x =? y then intersect_loop (result ++ [x]) rest1 rest2
             else if x <? y then intersect_loop result rest1 (y :: rest2)
             else scan result rest2
         end) result pList2
  end.

Definition intersect (pList1 pList2 : list nat) : list nat :=
  intersect_loop [] pList1 pList2.

(** The loop of [conjunction] (lines 209-213), with its [break]. *)
Fixpoint conjunction_loop (finalPostingsList : list nat)
    (rest : list (list nat)) : list nat :=
  match rest with
  | [] => finalPostingsList
  | postingsList :: rest' =>
      let finalPostingsList := intersect finalPostingsList postingsList in
      match finalPostingsList with
      | [] => finalPostingsList
      | _ => conjunction_loop finalPostingsList rest'
      end
  end.

(** [conjunction].  Past the [None] test every entry is a list, so
    [omap id] only removes the [Some] wrappers.  [sortedPostingsLists[0]]
    raises on an empty argument. *)
Definition conjunction (postingsLists : list (option (list nat))) :
    res (option (list nat)) :=
  if decide (None ∈ postingsLists) then Ok None
  else
    let sortedPostingsLists :=
      py_sorted (fun a b => length a <? length b) (omap id postingsLists) in
    match sortedPostingsLists with
    | [] => Raise IndexError
    | finalPostingsList :: others =>
        Ok (Some (conjunction_loop finalPostingsList others))
    end.

(** The counting loop of [queryTermRank] (lines 284-286). *)
Fixpoint count_docs (postingsList : list nat) (docFreq : list (nat * nat)) :
    list (nat * nat) :=
  match postingsList with
  | [] => docFreq
  | docID :: rest =>
      count_docs rest
        (dict_set docID (default 0 (dict_get docID docFreq) + 1) docFreq)
  end.

Definition queryTermRank (postingsList : list nat) : list (nat * nat) :=
  let docFreq := count_docs postingsList [] in
  py_sorted (fun x y => y.2 <? x.2) docFreq.

(** [disjunction].  Chaining the valid lists into one list is the
    concatenation [mjoin].  [set(unionPostings)] is a [gset]; whatever
    order its elements come in, [sorted] puts them in ascending order. *)
Definition disjunction (postingsLists : list (option (list nat)))
    (queryTermRanking : bool) : option postings :=
  let validPostingsLists := omap id postingsLists in
  match validPostingsLists with
  | [] => None
  | _ =>
      let unionPostings := mjoin validPostingsLists in
      if negb queryTermRanking
      then Some (Unranked
                   (py_sorted Nat.ltb
                      (elements (list_to_set unionPostings : gset nat))))
      else Some (Ranked (queryTermRank (py_sorted Nat.ltb unionPostings)))
  end.

Section BM25.
Context {F : Type} `{PyFloat F}.

(** [x / y] on floats: [ZeroDivisionError] when [y == 0.0]. *)
Definition py_fdiv (x y : F) : res F :=
  if feqb y (of_int 0) then Raise ZeroDivisionError else Ok (fdiv x y).

(** [m / n] on ints.  The quotient of two ints below 2^53 is the float
    quotient of their conversions. *)
Definition py_idiv (m n : nat) : res F :=
  if n =? 0 then Raise ZeroDivisionError else Ok (fdiv (of_int m) (of_int n)).

(** [collection[int(docID)]]: 0-based, [IndexError] past the end. *)
Definition py_index {A} (collection : list A) (docID : nat) : res A :=
  match collection !! docID with
  | Some doc => Ok doc
  | None => Raise IndexError
  end.

(** Line 161, the BM25 contribution of one posting. *)
Definition bm25_score (k1 b idf L_avg : F) (tf L_d : nat) : res F :=
  num ← Ok (fmul (of_int tf) (fadd k1 (of_int 1)));
  q ← py_fdiv (of_int L_d) L_avg;
  den ← Ok (fadd (fmul k1 (fadd (fsub (of_int 1) b) (fmul b q))) (of_int tf));
  r ← py_fdiv num den;
  Ok (fmul idf r).

(** The loop over one postings list (lines 157-165).  Lines 163-165
    create a missing entry as [0.0] and add the score to the entry. *)
Fixpoint bm25_postings (postingsList : list (nat * nat)) (result : list nat)
    (collection : list (list string)) (k1 b idf L_avg : F)
    (rankedResults : list (nat * F)) : res (list (nat * F)) :=
  match postingsList with
  | [] => Ok rankedResults
  | (docID, tf) :: rest =>
      if negb (docID =? 0) && bool_decide (docID ∈ result)
      then
        doc ← py_index collection docID;
        let L_d := length doc in
        score ← bm25_score k1 b idf L_avg tf L_d;
        let current := default (of_int 0) (dict_get docID rankedResults) in
        let rankedResults := dict_set docID (fadd current score) rankedResults in
        bm25_postings rest result collection k1 b idf L_avg rankedResults
      else bm25_postings rest result collection k1 b idf L_avg rankedResults
  end.

(** The loop over the query terms (lines 152-165).  [math.log] is
    applied to [N / df] with [N] and [df] positive, inside its domain. *)
Fixpoint bm25_terms (queryTerms : list string) (result : list nat)
    (index : gmap string (list (nat * nat)))
    (collection : list (list string)) (k1 b : F) (N : nat) (L_avg : F)
    (rankedResults : list (nat * F)) : res (list (nat * F)) :=
  match queryTerms with
  | [] => Ok rankedResults
  | term :: rest =>
      let postingsList := default [] (index !! term) in
      let df := length postingsList in
      let idf := if df =? 0 then of_int 0
                 else flog (fdiv (of_int N) (of_int df)) in
      rankedResults ←
        bm25_postings postingsList result collection k1 b idf L_avg
          rankedResults;
      bm25_terms rest result index collection k1 b N L_avg rankedResults
  end.

Definition bm25 (queryTerms : list string) (result : option (list nat))
    (index : gmap string (list (nat * nat)))
    (collection : list (list string)) (k1 b : F) :
    res (option (list (nat * F))) :=
  let N := length collection in
  let L_total := sum_list (length <$> collection) in
  L_avg ← py_idiv L_total N;
  match result with
  | None => Ok None
  | Some result =>
      rankedResults ←
        bm25_terms queryTerms result index collection k1 b N L_avg [];
      if forallb (fun item => feqb item.2 (of_int 0)) rankedResults
      then Ok None
      else Ok (Some (py_sorted (fun x y => fltb y.2 x.2) rankedResults))
  end.

End BM25.

End Query.

(** *** An executable instance: binary64

    The kernel's binary64 floats with their IEEE 754 operations.
    [math.log] is the C library's; here the logarithm is computed from
    the exponent and twenty terms of the series of
    [2 * atanh ((m - 1) / (m + 1))] on the mantissa [m]: an
    approximation of [math.log], which can differ from it in the last
    bit.  The instance serves to run the scorer on concrete inputs; the
    properties below are proved for every implementation of [PyFloat]. *)

Definition binary64_of_int (n : nat) : float :=
  PrimFloat.of_uint63 (Uint63.of_Z (Z.of_nat n)).

Fixpoint atanh_series (terms : nat) (z2 power : float) (k : nat) : float :=
  match terms with
  | 0 => PrimFloat.zero
  | S terms' =>
      PrimFloat.add (PrimFloat.div power (binary64_of_int k))
        (atanh_series terms' z2 (PrimFloat.mul power z2) (k + 2))
  end.

Definition binary64_ln (x : float) : float :=
  let '(m, e) := PrimFloat.frshiftexp x in
  let z := PrimFloat.div (PrimFloat.sub m PrimFloat.one)
             (PrimFloat.add m PrimFloat.one) in
  let ln_m :=
    PrimFloat.mul PrimFloat.two (atanh_series 20 (PrimFloat.mul z z) z 1) in
  let exponent :=
    PrimFloat.sub (PrimFloat.of_uint63 e)
      (PrimFloat.of_uint63 (Uint63.of_Z FloatOps.shift)) in
  PrimFloat.add (PrimFloat.mul exponent 0x1.62e42fefa39efp-1%float) ln_m.

#[global] Instance binary64_ops : PyFloat float := {|
  of_int := binary64_of_int;
  fadd := PrimFloat.add;
  fsub := PrimFloat.sub;
  fmul := PrimFloat.mul;
  fdiv := PrimFloat.div;
  flog := binary64_ln;
  feqb := PrimFloat.eqb;
  fltb := PrimFloat.ltb;
|}.

(** ** subProject2.py: the console and [queryTest]

    The functions below talk to a terminal.  A terminal session is the
    list of lines still to be typed ([input()] takes the first one and
    raises [EOFError] when none is left) and the list of lines printed.
    The prompts that [input] shows are not recorded.  Two library calls
    are parameters of the model: [tokenizer], the regular-expression
    tokenizer of [nltk], and [float_of_string], Python's [float] on a
    typed line ([None] for [ValueError]). *)

Module Console.

Import Query.

Section Console.
Context {F : Type} `{PyFloat F}.
Variable tokenizer : string → list string.
Variable float_of_string : string → option F.

(** The values the variable [result] of [queryTest] takes besides
    [None]: DocumentIDs, pairs of ints (postings with their frequency,
    or DocumentIDs with their match count), or a BM25 ranking. *)
Inductive answer : Type :=
| Ids (l : list nat)
| Pairs (l : list (nat * nat))
| Scores (l : list (nat * F)).

(** The [RANKING:] field of a report. *)
Inductive label : Set :=
| QueryTermRanking
| BM25
| NoRanking.

(** The lines the functions print.  The report of a result is a
    different string for each index: the format of line 54 has a space
    between the [RANKING:] field and the end of its line, the format of
    line 85 has none. *)
Inductive line : Type :=
| InvalidQuery (query : string)
| NaiveHeader
| SpimiHeader
| NaiveFound (query : string) (operation : option string) (ranking : label)
    (size : nat) (result : answer)
| SpimiFound (query : string) (operation : option string) (ranking : label)
    (size : nat) (result : answer)
| NoResults (query : string) (operation : option string)
| NotANumber
| BadK1 (k1 : F)
| BadB (b : F)
| BadOperation (operation : string)
| BadAnswer (answer : string)
| RankingNeedsOr
| Bm25NeedsSpimi.

Inductive failure : Set :=
| EOFError
| Exception (e : exn).

(** How a function leaves the session: with a value and the lines not
    yet read, or with an exception. *)
Inductive run (A : Type) : Type :=
| Returns (a : A) (rest : list string)
| Fails (f : failure).
Arguments Returns {A} a rest.
Arguments Fails {A} f.

Definition console (A : Type) : Type := list string → list line * run A.

Definition cret {A} (a : A) : console A :=
  fun inputs => ([], Returns a inputs).

Definition cbind {A B} (m : console A) (f : A → console B) : console B :=
  fun inputs =>
    match m inputs with
    | (out, Returns a rest) =>
        let '(out', r) := f a rest in (out ++ out', r)
    | (out, Fails e) => (out, Fails e)
    end.

Definition print (l : line) : console unit :=
  fun inputs => ([l], Returns () inputs).

Definition raise_of {A} (r : res A) : console A :=
  fun inputs =>
    match r with
    | Ok a => ([], Returns a inputs)
    | Raise e => ([], Fails (Exception e))
    end.

(** [x >= y] and [x <= y] on floats, from [<] and [==] as IEEE 754
    relates them (all four are false on a NaN). *)
Definition fgeb (x y : F) : bool := fltb y x || feqb x y.
Definition fleb (x y : F) : bool := fltb x y || feqb x y.

(** The first loop of [getK1B] (lines 98-108). *)
Fixpoint getK1 (inputs : list string) : list line * run F :=
  match inputs with
  | [] => ([], Fails EOFError)
  | typed :: rest =>
      match float_of_string typed with
      | Some k1 =>
          if fgeb k1 (of_int 0) then ([], Returns k1 rest)
          else let '(out, r) := getK1 rest in (BadK1 k1 :: out, r)
      | None => let '(out, r) := getK1 rest in (NotANumber :: out, r)
      end
  end.

(** The second loop of [getK1B] (lines 111-121). *)
Fixpoint getB (inputs : list string) : list line * run F :=
  match inputs with
  | [] => ([], Fails EOFError)
  | typed :: rest =>
      match float_of_string typed with
      | Some b =>
          if fleb (of_int 0) b && fleb b (of_int 1) then ([], Returns b rest)
          else let '(out, r) := getB rest in (BadB b :: out, r)
      | None => let '(out, r) := getB rest in (NotANumber :: out, r)
      end
  end.

Definition getK1B : console (F * F) :=
  cbind getK1 (fun k1 => cbind getB (fun b => cret (k1, b))).

(** [getOperation]. *)
Fixpoint getOperation (inputs : list string) : list line * run string :=
  match inputs with
  | [] => ([], Fails EOFError)
  | operation :: rest =>
      if bool_decide (operation ∈ ["AND"; "OR"]%string)
      then ([], Returns operation rest)
      else let '(out, r) := getOperation rest in
           (BadOperation operation :: out, r)
  end.

(** The loop of [getIndexes] (lines 321-327): the answer. *)
Fixpoint getIndexes_answer (inputs : list string) : list line * run string :=
  match inputs with
  | [] => ([], Fails EOFError)
  | answer :: rest =>
      if bool_decide (answer ∈ ["n"; "s"; "b"]%string)
      then ([], Returns answer rest)
      else let '(out, r) := getIndexes_answer rest in
           (BadAnswer answer :: out, r)
  end.

(** [getIndexes]: the pair [(spimi, naive)], [None] for an index that
    was not chosen. *)
Definition getIndexes {S N : Type} (spimiIndex : option S)
    (naiveIndex : option N) : console (option S * option N) :=
  cbind getIndexes_answer (fun answer =>
    if String.eqb answer "s" then cret (spimiIndex, None)
    else if String.eqb answer "n" then cret (None, naiveIndex)
    else cret (spimiIndex, naiveIndex)).

(** Python's truth value of an index: [None] and the empty dictionary
    are false. *)
Definition index_truthy {V} (index : option (gmap string V)) : bool :=
  match index with
  | Some m => negb (bool_decide (m = ∅))
  | None => false
  end.

(** [getRanking]: the pair [(queryTermRank, bm25)]. *)
Fixpoint getRanking {V} (operation : option string)
    (spimiIndex : option (gmap string V)) (inputs : list string) :
    list line * run (bool * bool) :=
  match inputs with
  | [] => ([], Fails EOFError)
  | answer :: rest =>
      if bool_decide (answer ∈ ["q"; "b"; "n"]%string)
      then
        if String.eqb answer "q" && negb (bool_decide (operation = Some "OR"%string))
        then let '(out, r) := getRanking operation spimiIndex rest in
             (RankingNeedsOr :: out, r)
        else if String.eqb answer "b" && negb (index_truthy spimiIndex)
        then let '(out, r) := getRanking operation spimiIndex rest in
             (Bm25NeedsSpimi :: out, r)
        else ([], Returns (String.eqb answer "q", String.eqb answer "b") rest)
      else let '(out, r) := getRanking operation spimiIndex rest in
           (BadAnswer answer :: out, r)
  end.

(** [len(result)]. *)
Definition size (result : answer) : nat :=
  match result with
  | Ids l => length l
  | Pairs l => length l
  | Scores l => length l
  end.

(** [if result:] is false for [None] and for an empty list. *)
Definition truthy (result : option answer) : bool :=
  match result with
  | Some a => negb (size a =? 0)
  | None => false
  end.

Definition of_postings (p : postings) : answer :=
  match p with
  | Unranked l => Ids l
  | Ranked l => Pairs l
  end.

(** The argument [result] as [bm25] sees it.  [bm25] only asks whether
    it is [None] and whether a DocumentID is [in] it, and no DocumentID
    is in a list of pairs. *)
Definition candidates (result : option answer) : option (list nat) :=
  match result with
  | None => None
  | Some (Ids l) => Some l
  | Some (Pairs _) => Some []
  | Some (Scores _) => Some []
  end.

(** Lines 47-50 and 72-77: the boolean combination of the lists. *)
Definition combine (postingsLists : list (option (list nat)))
    (operation : option string) (queryTermRanking : bool) :
    res (option answer) :=
  if bool_decide (operation = Some "AND"%string)
  then match conjunction postingsLists with
       | Ok result => Ok (Ids <$> result)
       | Raise e => Raise e
       end
  else if bool_decide (operation = Some "OR"%string)
  then Ok (of_postings <$> disjunction postingsLists queryTermRanking)
  else Ok None.

(** Lines 36-50: [result] for the naive index. *)
Definition naive_result (queryTerms : list string)
    (naiveIndex : gmap string (list nat)) (operation : option string)
    (queryTermRanking : bool) : res (option answer) :=
  match queryTerms with
  | [term] => Ok (Ids <$> naiveIndex !! term)
  | _ =>
      let postingsLists := (fun term => naiveIndex !! term) <$> queryTerms in
      combine postingsLists operation queryTermRanking
  end.

(** Lines 62-81: [result] for the spimi index; [getK1B] is only called
    when BM25 is asked for and the combination found something. *)
Definition spimi_result (queryTerms : list string)
    (spimiIndex : gmap string (list (nat * nat)))
    (collection : list (list string)) (operation : option string)
    (queryTermRanking bm25Ranking : bool) : console (option answer) :=
  match queryTerms with
  | [term] => cret (Pairs <$> spimiIndex !! term)
  | _ =>
      let postingsLists := (fun term => spimiIndex !! term) <$> queryTerms in
      cbind (raise_of (combine (convertPostingsLists postingsLists) operation
                         queryTermRanking)) (fun result =>
      if bm25Ranking && truthy result
      then cbind getK1B (fun k1b =>
           cbind (raise_of (bm25 queryTerms (candidates result) spimiIndex
                              collection k1b.1 k1b.2)) (fun ranked =>
           cret (Scores <$> ranked)))
      else cret result)
  end.

(** Lines 53-56 and 84-87: the line that reports [result]; [found] is
    the format of the index at hand, [NaiveFound] or [SpimiFound]. *)
Definition report_line
    (found : string → option string → label → nat → answer → line)
    (query : string) (operation : option string) (ranking : label)
    (result : option answer) : line :=
  match result with
  | Some a =>
      if truthy result then found query operation ranking (size a) a
      else NoResults query operation
  | None => NoResults query operation
  end.

Definition report
    (found : string → option string → label → nat → answer → line)
    (query : string) (operation : option string) (ranking : label)
    (result : option answer) : console unit :=
  print (report_line found query operation ranking result).

Definition queryTest (query : string)
    (spimiIndex : option (gmap string (list (nat * nat))))
    (naiveIndex : option (gmap string (list nat)))
    (collection : list (list string)) (operation : option string)
    (queryTermRanking bm25Ranking : bool) : console unit :=
  let queryTerms := tokenizer query in
  if length queryTerms =? 0 then print (InvalidQuery query)
  else
    cbind
      (match naiveIndex with
       | Some index =>
           if index_truthy naiveIndex
           then
             cbind (print NaiveHeader) (fun _ =>
             cbind (raise_of (naive_result queryTerms index operation
                                queryTermRanking)) (fun result =>
             report NaiveFound query operation
               (if queryTermRanking then QueryTermRanking else NoRanking)
               result))
           else cret ()
       | None => cret ()
       end) (fun _ =>
    match spimiIndex with
    | Some index =>
        if index_truthy spimiIndex
        then
          cbind (print SpimiHeader) (fun _ =>
          cbind (spimi_result queryTerms index collection operation
                   queryTermRanking bm25Ranking) (fun result =>
          report SpimiFound query operation
            (if queryTermRanking then QueryTermRanking
             else if bm25Ranking then BM25 else NoRanking)
            result))
        else cret ()
    | None => cret ()
    end).

End Console.

Arguments Returns {A} a rest.
Arguments Fails {A} f.

End Console.

(** ** Vocabulary of the specification *)

Import Builders Query.

(** The token occurrences of a corpus in traversal order, each paired
    with the DocumentID of its document; the first document is [docID]. *)
Fixpoint occurrences (docID : nat) (tokensList : list (list string)) :
    list (string * nat) :=
  match tokensList with
  | [] => []
  | tokens :: rest =>
      ((fun token => (token, docID)) <$> tokens) ++ occurrences (S docID) rest
  end.

(** The occurrences a build with budget [testCount] gets to see. *)
Definition within_budget (testCount : option nat) (l : list (string * nat)) :
    list (string * nat) :=
  match testCount with
  | None => l
  | Some 0 => l
  | Some n => take n l
  end.

(** Number of token occurrences of a corpus. *)
Definition token_count (tokensList : list (list string)) : nat :=
  sum_list (length <$> tokensList).

(** Sum of the term frequencies of all postings of an index. *)
Definition total_tf (index : gmap string (list (nat * nat))) : nat :=
  map_fold (fun _ postingsList acc => sum_list (postingsList.*2) + acc) 0 index.

(** [spimi_add] iterated over a list of occurrences. *)
Fixpoint spimi_fold (pairs : list (string * nat))
    (index : gmap string (list (nat * nat))) :
    res (gmap string (list (nat * nat))) :=
  match pairs with
  | [] => Ok index
  | p :: rest =>
      index ← spimi_add p.1 p.2 index;
      spimi_fold rest index
  end.

(** A frequency-bearing index with the frequencies dropped. *)
Definition bare (index : gmap string (list (nat * nat))) :
    gmap string (list nat) :=
  (fun postingsList : list (nat * nat) => postingsList.*1) <$> index.

(** Occurrences of one term come in non-decreasing DocumentID order. *)
Definition doc_ordered (p q : string * nat) : Prop := p.1 = q.1 → p.2 ≤ q.2.

(** The order [F.sort()] establishes. *)
Definition pair_le (p q : string * nat) : Prop := pair_ltb q p = false.

Section BM25_vocabulary.
Context {F : Type} `{PyFloat F}.

(** The postings [bm25] visits, in order, each with the idf of its
    query term. *)
Definition visited (queryTerms : list string)
    (index : gmap string (list (nat * nat))) (N : nat) :
    list (F * (nat * nat)) :=
  queryTerms ≫= fun term =>
    let postingsList := default [] (index !! term) in
    let df := length postingsList in
    let idf := if df =? 0 then of_int 0
               else flog (fdiv (of_int N) (of_int df)) in
    (fun posting => (idf, posting)) <$> postingsList.

(** The score of document [d] after the visits: [current] to begin
    with ([None]: no score yet), then [0.0] plus the contributions of the
    visited postings of [d], added one after the other. *)
Fixpoint accumulated (d : nat) (visits : list (F * (nat * nat)))
    (result : list nat) (collection : list (list string)) (k1 b L_avg : F)
    (current : option F) : res (option F) :=
  match visits with
  | [] => Ok current
  | (idf, (docID, tf)) :: rest =>
      if negb (docID =? 0) && bool_decide (docID ∈ result)
      then
        doc ← py_index collection docID;
        score ← bm25_score k1 b idf L_avg tf (length doc);
        accumulated d rest result collection k1 b L_avg
          (if docID =? d then Some (fadd (default (of_int 0) current) score)
           else current)
      else accumulated d rest result collection k1 b L_avg current
  end.

End BM25_vocabulary.

(** The budgets that are falsy in the stop tests. *)
Definition unbudgeted (testCount : option nat) : Prop :=
  testCount = None ∨ testCount = Some 0.

(** The state the loops of [spimi] reach from [(index, pairCount)] when
    they get to process [pairs]. *)
Definition spimi_run (pairs : list (string * nat))
    (index : gmap string (list (nat * nat))) (pairCount : nat) :
    res (gmap string (list (nat * nat)) * nat) :=
  index' ← spimi_fold pairs index;
  Ok (index', pairCount + length pairs).

(** What the index holds after a pass of [spimi_add] over [pairs]. *)
Record spimi_inv (pairs : list (string * nat))
    (index : gmap string (list (nat * nat))) : Prop := {
  inv_keys : ∀ term, is_Some (index !! term) ↔ term ∈ pairs.*1;
  inv_sorted : ∀ term pl, index !! term = Some pl → StronglySorted lt (pl.*1);
  inv_docs : ∀ term pl docID,
    index !! term = Some pl → docID ∈ pl.*1 ↔ (term, docID) ∈ pairs;
  inv_tf : ∀ term pl, index !! term = Some pl → Forall (fun p => 1 ≤ p.2) pl;
  inv_total : total_tf index = length pairs;
}.

(** What the sort needs of a Python comparison [ltb], asked only of the
    elements that are sorted: floats meet it as long as none of them is
    a NaN. *)
Definition asym_on {A} (ltb : A → A → bool) (l : list A) : Prop :=
  ∀ x y, x ∈ l → y ∈ l → ltb x y = true → ltb y x = false.
Definition trans_on {A} (ltb : A → A → bool) (l : list A) : Prop :=
  ∀ x y z, x ∈ l → y ∈ l → z ∈ l →
    ltb y x = false → ltb z y = false → ltb z x = false.

(** Number of occurrences of a term in a document. *)
Definition occurrences_in (term : string) (doc : list string) : nat :=
  length (filter (fun token => token = term) doc).

(** The corpus cut off after its first [n] token occurrences: the
    documents before the cut, and the part of the document the cut
    falls in. *)
Fixpoint cut_corpus (n : nat) (tokensList : list (list string)) :
    list (list string) :=
  match tokensList with
  | [] => []
  | tokens :: rest =>
      if n <=? length tokens then [take n tokens]
      else tokens :: cut_corpus (n - length tokens) rest
  end.

(** The frequencies of an index are the numbers of occurrences in
    [pairs]. *)
Definition counts_pairs (pairs : list (string * nat))
    (index : gmap string (list (nat * nat))) : Prop :=
  ∀ term pl docID tf,
    index !! term = Some pl → (docID, tf) ∈ pl →
    tf = length (filter (fun p => p = (term, docID)) pairs).

(** ** The sort and the duplicate removal *)

(** Membership in a list given by its first elements. *)
Ltac elem_of_tauto :=
  repeat match goal with H : _ ∈ _ |- _ => revert H end;
  rewrite ?elem_of_cons; intuition auto.

Section py_sorted_facts.
Context {A : Type} (ltb : A → A → bool).

Lemma py_insert_Permutation x l : py_insert ltb x l ≡ₚ x :: l.
Proof.
  induction l as [|y l IH]; simpl; [done|].
  destruct (ltb y x); [|done].
  rewrite IH. apply Permutation_swap.
Qed.

Lemma py_sorted_Permutation l : py_sorted ltb l ≡ₚ l.
Proof.
  induction l as [|x l IH]; simpl; [done|].
  by rewrite py_insert_Permutation, IH.
Qed.

Lemma py_sorted_length l : length (py_sorted ltb l) = length l.
Proof. by rewrite py_sorted_Permutation. Qed.

Lemma py_sorted_elem_of x l : x ∈ py_sorted ltb l ↔ x ∈ l.
Proof. by rewrite py_sorted_Permutation. Qed.

Lemma py_insert_StronglySorted x l :
  asym_on ltb (x :: l) → trans_on ltb (x :: l) →
  StronglySorted (fun a b => ltb b a = false) l →
  StronglySorted (fun a b => ltb b a = false) (py_insert ltb x l).
Proof.
  intros Hasym Htrans. induction 1 as [|y l Hl IH Hy]; simpl.
  { repeat constructor. }
  destruct (ltb y x) eqn:Hyx.
  - constructor.
    + apply IH.
      * intros a c Ha Hc. apply Hasym; elem_of_tauto.
      * intros a c e Ha Hc He. apply Htrans; elem_of_tauto.
    + rewrite py_insert_Permutation. constructor; [|done].
      apply Hasym; elem_of_tauto.
  - constructor; [by constructor|].
    constructor; [done|].
    rewrite Forall_forall in Hy |- *. intros z Hz.
    apply (Htrans x y z); elem_of_tauto.
Qed.

Lemma py_sorted_StronglySorted l :
  asym_on ltb l → trans_on ltb l →
  StronglySorted (fun a b => ltb b a = false) (py_sorted ltb l).
Proof.
  induction l as [|x l IH]; intros Hasym Htrans; simpl; [constructor|].
  apply py_insert_StronglySorted.
  - intros a c Ha Hc. apply Hasym.
    + revert Ha. rewrite !elem_of_cons, py_sorted_elem_of. tauto.
    + revert Hc. rewrite !elem_of_cons, py_sorted_elem_of. tauto.
  - intros a c e Ha Hc He. apply Htrans.
    + revert Ha. rewrite !elem_of_cons, py_sorted_elem_of. tauto.
    + revert Hc. rewrite !elem_of_cons, py_sorted_elem_of. tauto.
    + revert He. rewrite !elem_of_cons, py_sorted_elem_of. tauto.
  - apply IH.
    + intros a c Ha Hc. apply Hasym; by apply list_elem_of_further.
    + intros a c e Ha Hc He. apply Htrans; by apply list_elem_of_further.
Qed.

End py_sorted_facts.

Section fromkeys_facts.
Context {A : Type} `{EqDecision A}.
Implicit Types l seen : list A.

Lemma fromkeys_from_elem_of seen l x :
  x ∈ fromkeys_from seen l ↔ x ∈ l ∧ x ∉ seen.
Proof.
  revert seen. induction l as [|y l IH]; intros seen; simpl.
  { set_solver. }
  destruct (decide (y ∈ seen)) as [Hy|Hy].
  - rewrite IH. set_solver.
  - rewrite elem_of_cons, IH. destruct (decide (x = y)); set_solver.
Qed.

Lemma fromkeys_elem_of l x : x ∈ fromkeys l ↔ x ∈ l.
Proof. unfold fromkeys. rewrite fromkeys_from_elem_of. set_solver. Qed.

Lemma fromkeys_from_StronglySorted (R : relation A) seen l :
  StronglySorted R l → StronglySorted R (fromkeys_from seen l).
Proof.
  intros Hl. revert seen.
  induction Hl as [|y l Hl IH Hy]; intros seen; simpl; [constructor|].
  destruct (decide (y ∈ seen)); [done|].
  constructor; [done|].
  rewrite Forall_forall in Hy |- *. intros z Hz.
  apply Hy. by apply fromkeys_from_elem_of in Hz as [? _].
Qed.

Lemma fromkeys_from_NoDup seen l : NoDup (fromkeys_from seen l).
Proof.
  revert seen. induction l as [|y l IH]; intros seen; simpl; [constructor|].
  destruct (decide (y ∈ seen)); [done|].
  constructor; [|done].
  rewrite fromkeys_from_elem_of. set_solver.
Qed.

End fromkeys_facts.

(** ** The order on [(term, DocumentID)] pairs *)

Lemma string_compare_refl s : String.compare s s = Eq.
Proof.
  pose proof (String.compare_antisym s s) as Hs.
  by destruct (String.compare s s).
Qed.

Lemma string_compare_Lt_le s1 s2 :
  String.compare s1 s2 = Lt → String.le s1 s2 ∧ s1 ≠ s2.
Proof.
  intros Hc. split.
  - unfold String.le, String.leb. by rewrite Hc.
  - intros ->. rewrite string_compare_refl in Hc. done.
Qed.

Lemma pair_le_spec p q :
  pair_le p q ↔ String.le p.1 q.1 ∧ (p.1 = q.1 → p.2 ≤ q.2).
Proof.
  unfold pair_le, pair_ltb.
  destruct (String.compare q.1 p.1) eqn:Hc.
  - apply String.compare_eq_iff in Hc. rewrite Hc, Nat.ltb_ge.
    split; [|tauto]. intros Hle. split; [done|]. by intros _.
  - apply string_compare_Lt_le in Hc as [Hle Hne].
    split; [done|]. intros [Hle' _].
    destruct Hne. by apply (anti_symm String.le).
  - rewrite String.compare_antisym in Hc.
    destruct (String.compare p.1 q.1) eqn:Hc'; try done.
    apply string_compare_Lt_le in Hc' as [Hle Hne].
    split; [|done]. intros _. split; [done|]. intros Heq. by destruct Hne.
Qed.

Lemma pair_le_doc_ordered p q : pair_le p q → doc_ordered p q.
Proof. rewrite pair_le_spec. unfold doc_ordered. tauto. Qed.

Lemma pair_ltb_asym p q : pair_ltb p q = true → pair_ltb q p = false.
Proof.
  intros Hpq. fold (pair_le p q). apply pair_le_spec.
  destruct (pair_ltb q p) eqn:Hqp.
  - exfalso. unfold pair_ltb in *.
    rewrite String.compare_antisym in Hqp.
    destruct (String.compare p.1 q.1) eqn:Hc; simpl in *; try done.
    apply Nat.ltb_lt in Hpq, Hqp. lia.
  - fold (pair_le p q) in Hqp. by apply pair_le_spec in Hqp.
Qed.

Lemma pair_le_trans p q r : pair_le p q → pair_le q r → pair_le p r.
Proof.
  rewrite !pair_le_spec. intros [Hpq Hd1] [Hqr Hd2]. split.
  - by trans q.1.
  - intros Heq. rewrite Heq in Hpq.
    assert (q.1 = r.1) as Hqr' by by apply (anti_symm String.le).
    specialize (Hd2 Hqr'). rewrite <-Heq in Hqr'.
    specialize (Hd1 (eq_sym Hqr')). lia.
Qed.

Lemma StronglySorted_impl {A} (R1 R2 : relation A) l :
  (∀ x y, R1 x y → R2 x y) → StronglySorted R1 l → StronglySorted R2 l.
Proof.
  intros HR. induction 1 as [|x l Hl IH Hx]; constructor; [done|].
  eapply Forall_impl; [done|]. auto.
Qed.

(** The sorted, duplicate-free pair list that [naive] groups. *)
Lemma sorted_pairs_doc_ordered (pairs : list (string * nat)) :
  StronglySorted doc_ordered (fromkeys (py_sorted pair_ltb pairs)).
Proof.
  apply fromkeys_from_StronglySorted.
  apply (StronglySorted_impl pair_le); [apply pair_le_doc_ordered|].
  apply py_sorted_StronglySorted.
  - intros p q _ _. apply pair_ltb_asym.
  - intros p q r _ _ _. apply pair_le_trans.
Qed.

Lemma sorted_pairs_elem_of (pairs : list (string * nat)) p :
  p ∈ fromkeys (py_sorted pair_ltb pairs) ↔ p ∈ pairs.
Proof. by rewrite fromkeys_elem_of, py_sorted_elem_of. Qed.

(** ** The occurrences a build processes *)

Lemma occurrences_length docID tokensList :
  length (occurrences docID tokensList) = token_count tokensList.
Proof.
  revert docID. unfold token_count.
  induction tokensList as [|tokens rest IH]; intros docID; simpl; [done|].
  by rewrite length_app, length_fmap, IH.
Qed.

Lemma occurrences_lower_bound docID tokensList p :
  p ∈ occurrences docID tokensList → docID ≤ p.2.
Proof.
  revert docID. induction tokensList as [|tokens rest IH]; intros docID; simpl.
  { by intros ?%elem_of_nil. }
  rewrite elem_of_app, list_elem_of_fmap.
  intros [(token & -> & _)|Hp]; simpl; [done|].
  apply IH in Hp. lia.
Qed.

Lemma occurrences_sorted docID tokensList :
  StronglySorted (fun p q : string * nat => p.2 ≤ q.2)
    (occurrences docID tokensList).
Proof.
  revert docID. induction tokensList as [|tokens rest IH]; intros docID; simpl.
  { constructor. }
  apply StronglySorted_app_2; [| |done].
  - intros p q (token & -> & _)%list_elem_of_fmap Hq%occurrences_lower_bound.
    simpl. lia.
  - induction tokens as [|token tokens IHt]; simpl; constructor; [done|].
    apply Forall_forall. by intros p (token' & -> & _)%list_elem_of_fmap.
Qed.

Lemma within_budget_doc_ordered testCount docID tokensList :
  StronglySorted doc_ordered
    (within_budget testCount (occurrences docID tokensList)).
Proof.
  assert (StronglySorted doc_ordered (occurrences docID tokensList)) as Hocc.
  { apply (StronglySorted_impl (fun p q => p.2 ≤ q.2)); [by intros p q ? _|].
    apply occurrences_sorted. }
  destruct testCount as [[|n]|]; simpl; try done.
  rewrite <-(take_drop (S n) (occurrences docID tokensList)) in Hocc.
  by apply StronglySorted_app_1_l in Hocc.
Qed.

(** *** The pair collection of [naive] *)

Lemma naive_tokens_unbudgeted testCount docID tokens F :
  unbudgeted testCount →
  naive_tokens testCount docID tokens F
  = F ++ ((fun token => (token, docID)) <$> tokens).
Proof.
  intros Htc. revert F. induction tokens as [|token rest IH]; intros F; simpl.
  { by rewrite app_nil_r. }
  replace (naive_stop testCount (F ++ [(token, docID)])) with false
    by by destruct Htc as [-> | ->].
  by rewrite IH, <-app_assoc.
Qed.

Lemma naive_docs_unbudgeted testCount docID tokensList F :
  unbudgeted testCount →
  naive_docs testCount docID tokensList F = F ++ occurrences docID tokensList.
Proof.
  intros Htc. revert docID F.
  induction tokensList as [|tokens rest IH]; intros docID F; simpl.
  { by rewrite app_nil_r. }
  rewrite naive_tokens_unbudgeted by done.
  replace (naive_stop testCount _) with false by by destruct Htc as [-> | ->].
  by rewrite IH, <-app_assoc.
Qed.

Lemma naive_tokens_budgeted n docID tokens F :
  length F < S n →
  naive_tokens (Some (S n)) docID tokens F
  = F ++ take (S n - length F) ((fun token => (token, docID)) <$> tokens).
Proof.
  revert F. induction tokens as [|token rest IH]; intros F HF; simpl.
  { by rewrite take_nil, app_nil_r. }
  destruct (S n - length F) as [|k] eqn:Hk; [lia|].
  rewrite length_app. simpl.
  destruct (length F + 1 =? S n) eqn:Hstop.
  - apply Nat.eqb_eq in Hstop. by replace k with 0 by lia.
  - apply Nat.eqb_neq in Hstop.
    rewrite IH by (rewrite length_app; simpl; lia).
    rewrite length_app. simpl.
    replace (S n - (length F + 1)) with k by lia.
    by rewrite <-app_assoc.
Qed.

Lemma naive_docs_budgeted n docID tokensList F :
  length F < S n →
  naive_docs (Some (S n)) docID tokensList F
  = F ++ take (S n - length F) (occurrences docID tokensList).
Proof.
  revert docID F.
  induction tokensList as [|tokens rest IH]; intros docID F HF; simpl.
  { by rewrite take_nil, app_nil_r. }
  rewrite naive_tokens_budgeted by done.
  set (k := S n - length F).
  set (pairs := (fun token => (token, docID)) <$> tokens).
  rewrite take_app, length_app, length_take.
  destruct (length F + k `min` length pairs =? S n)%nat eqn:Hstop.
  - apply Nat.eqb_eq in Hstop.
    replace (k - length pairs) with 0 by lia.
    by rewrite take_0, app_nil_r.
  - apply Nat.eqb_neq in Hstop.
    rewrite IH by (rewrite length_app, length_take; lia).
    rewrite length_app, length_take.
    replace (S n - (length F + k `min` length pairs)) with (k - length pairs)
      by lia.
    by rewrite <-app_assoc.
Qed.

Lemma naive_pairs_spec tokensList testCount :
  naive_pairs tokensList testCount
  = within_budget testCount (occurrences 1 tokensList).
Proof.
  unfold naive_pairs. destruct testCount as [[|n]|]; simpl.
  - rewrite naive_docs_unbudgeted by by right. done.
  - rewrite naive_docs_budgeted by (simpl; lia). done.
  - rewrite naive_docs_unbudgeted by by left. done.
Qed.

(** *** The single pass of [spimi] *)

Ltac fold_fmap :=
  repeat match goal with
  | |- context [list_fmap ?A ?B ?f ?l] =>
      change (list_fmap A B f l) with (f <$> l)
  end.

Lemma res_bind_Ok {A B} (f : A → res B) a : Ok a ≫= f = f a.
Proof. done. Qed.

Lemma res_bind_Raise {A B} (f : A → res B) e : Raise e ≫= f = Raise e.
Proof. done. Qed.

Lemma spimi_fold_app pairs1 pairs2 index :
  spimi_fold (pairs1 ++ pairs2) index
  = spimi_fold pairs1 index ≫= spimi_fold pairs2.
Proof.
  revert index. induction pairs1 as [|p pairs1 IH]; intros index; simpl.
  { done. }
  destruct (spimi_add p.1 p.2 index) as [index'|e]; simpl; [|done].
  by rewrite ?res_bind_Ok, IH.
Qed.

Lemma spimi_tokens_unbudgeted testCount docID tokens index pairCount :
  unbudgeted testCount →
  spimi_tokens testCount docID tokens index pairCount
  = spimi_run ((fun token => (token, docID)) <$> tokens) index pairCount.
Proof.
  intros Htc. unfold spimi_run. revert index pairCount.
  induction tokens as [|token rest IH]; intros index pairCount; simpl.
  { rewrite ?res_bind_Ok. do 2 f_equal. fold_fmap. lia. }
  destruct (spimi_add token docID index) as [index'|e]; [|done].
  rewrite ?res_bind_Ok.
  replace (spimi_stop testCount (S pairCount)) with false
    by by destruct Htc as [-> | ->].
  rewrite IH. destruct (spimi_fold _ index') as [index''|e]; [|done].
  rewrite ?res_bind_Ok. do 2 f_equal. fold_fmap. lia.
Qed.

Lemma spimi_docs_unbudgeted testCount docID tokensList index pairCount :
  unbudgeted testCount →
  spimi_docs testCount docID tokensList index pairCount
  = spimi_run (occurrences docID tokensList) index pairCount.
Proof.
  intros Htc. unfold spimi_run. revert docID index pairCount.
  induction tokensList as [|tokens rest IH]; intros docID index pairCount; simpl.
  { rewrite ?res_bind_Ok. do 2 f_equal. fold_fmap. lia. }
  rewrite spimi_tokens_unbudgeted, spimi_fold_app by done. unfold spimi_run.
  destruct (spimi_fold _ index) as [index'|e]; [|done].
  rewrite ?res_bind_Ok. simpl.
  replace (spimi_stop testCount _) with false by by destruct Htc as [-> | ->].
  rewrite IH. destruct (spimi_fold _ index') as [index''|e]; [|done].
  rewrite ?res_bind_Ok, length_app. do 2 f_equal. fold_fmap. lia.
Qed.

Lemma spimi_tokens_budgeted n docID tokens index pairCount :
  pairCount < S n →
  spimi_tokens (Some (S n)) docID tokens index pairCount
  = spimi_run (take (S n - pairCount) ((fun token => (token, docID)) <$> tokens))
      index pairCount.
Proof.
  unfold spimi_run. revert index pairCount.
  induction tokens as [|token rest IH]; intros index pairCount Hpc; simpl.
  { rewrite take_nil. simpl. rewrite ?res_bind_Ok. do 2 f_equal. fold_fmap. lia. }
  destruct (S n - pairCount) as [|k] eqn:Hk; [lia|]. simpl.
  destruct (spimi_add token docID index) as [index'|e]; [|done].
  rewrite ?res_bind_Ok.
  destruct (n <=? pairCount) eqn:Hstop.
  - apply Nat.leb_le in Hstop. replace k with 0 by lia.
    rewrite take_0. simpl. rewrite ?res_bind_Ok. do 2 f_equal. fold_fmap. lia.
  - apply Nat.leb_gt in Hstop. rewrite IH by lia.
    replace (S n - S pairCount) with k by lia.
    destruct (spimi_fold _ index') as [index''|e]; [|done].
    rewrite ?res_bind_Ok. do 2 f_equal. fold_fmap. lia.
Qed.

Lemma spimi_docs_budgeted n docID tokensList index pairCount :
  pairCount < S n →
  spimi_docs (Some (S n)) docID tokensList index pairCount
  = spimi_run (take (S n - pairCount) (occurrences docID tokensList))
      index pairCount.
Proof.
  unfold spimi_run. revert docID index pairCount.
  induction tokensList as [|tokens rest IH];
    intros docID index pairCount Hpc; simpl.
  { rewrite take_nil. simpl. rewrite ?res_bind_Ok. do 2 f_equal. fold_fmap. lia. }
  rewrite spimi_tokens_budgeted by done. unfold spimi_run.
  set (k := S n - pairCount).
  set (pairs := (fun token => (token, docID)) <$> tokens).
  rewrite take_app, spimi_fold_app.
  destruct (spimi_fold (take k pairs) index) as [index'|e]; [|done].
  rewrite ?res_bind_Ok. cbn [fst snd].
  rewrite length_app, !length_take.
  change (match ?pc with 0 => false | S m' => n <=? m' end) with (S n <=? pc).
  destruct (S n <=? pairCount + k `min` length pairs) eqn:Hstop.
  - apply Nat.leb_le in Hstop.
    replace (k - length pairs) with 0 by lia.
    rewrite take_0. simpl. rewrite ?res_bind_Ok. do 2 f_equal. fold_fmap. lia.
  - apply Nat.leb_gt in Hstop. rewrite IH by lia.
    replace (S n - (pairCount + k `min` length pairs)) with (k - length pairs)
      by lia.
    destruct (spimi_fold _ index') as [index''|e]; [|done].
    rewrite ?res_bind_Ok, length_take. do 2 f_equal. fold_fmap. lia.
Qed.

Lemma spimi_spec tokensList testCount :
  spimi tokensList testCount
  = spimi_fold (within_budget testCount (occurrences 1 tokensList)) ∅.
Proof.
  unfold spimi.
  assert (spimi_docs testCount 1 tokensList ∅ 0
          = spimi_run (within_budget testCount (occurrences 1 tokensList)) ∅ 0)
    as ->.
  { destruct testCount as [[|n]|]; simpl.
    - apply spimi_docs_unbudgeted. by right.
    - rewrite spimi_docs_budgeted by lia. done.
    - apply spimi_docs_unbudgeted. by left. }
  unfold spimi_run. by destruct (spimi_fold _ ∅).
Qed.

(** *** What the index holds after a pass over [pairs] *)

Lemma total_tf_empty : total_tf ∅ = 0.
Proof. unfold total_tf. by rewrite map_fold_empty. Qed.

Lemma total_tf_insert_fresh (index : gmap string (list (nat * nat))) term pl :
  index !! term = None →
  total_tf (<[term := pl]> index) = sum_list (pl.*2) + total_tf index.
Proof.
  intros Hnone. unfold total_tf.
  rewrite map_fold_insert_L; [done| |done].
  intros. lia.
Qed.

Lemma total_tf_insert_present (index : gmap string (list (nat * nat)))
    term old new :
  index !! term = Some old →
  total_tf (<[term := new]> index) + sum_list (old.*2)
  = total_tf index + sum_list (new.*2).
Proof.
  intros Hsome.
  rewrite <-(insert_delete_eq index term new).
  rewrite <-(insert_delete_id index term old) at 2 by done.
  rewrite !total_tf_insert_fresh by apply lookup_delete_eq. lia.
Qed.

Lemma spimi_inv_nil : spimi_inv [] ∅.
Proof.
  split.
  - intros term. rewrite lookup_empty. split; [by intros []|].
    by intros ?%elem_of_nil.
  - intros term pl. by rewrite lookup_empty.
  - intros term pl docID. by rewrite lookup_empty.
  - intros term pl. by rewrite lookup_empty.
  - apply total_tf_empty.
Qed.

Lemma elem_of_pairs_snoc (pairs : list (string * nat)) term docID term' docID' :
  (term', docID') ∈ pairs ++ [(term, docID)]
  ↔ (term', docID') ∈ pairs ∨ (term' = term ∧ docID' = docID).
Proof. rewrite elem_of_app, list_elem_of_singleton. naive_solver. Qed.

Lemma elem_of_keys_snoc (pairs : list (string * nat)) term docID term' :
  term' ∈ (pairs ++ [(term, docID)]).*1 ↔ term' ∈ pairs.*1 ∨ term' = term.
Proof. rewrite fmap_app, elem_of_app. simpl. by rewrite list_elem_of_singleton. Qed.

Lemma elem_of_keys (pairs : list (string * nat)) term :
  term ∈ pairs.*1 ↔ ∃ docID, (term, docID) ∈ pairs.
Proof.
  rewrite list_elem_of_fmap. split.
  - intros ([t d] & -> & Hin). by exists d.
  - intros (d & Hin). by exists (term, d).
Qed.

Lemma spimi_add_inv pairs index term docID :
  spimi_inv pairs index →
  (∀ q, q ∈ pairs → doc_ordered q (term, docID)) →
  ∃ index', spimi_add term docID index = Ok index'
            ∧ spimi_inv (pairs ++ [(term, docID)]) index'.
Proof.
  intros [Hkeys Hsorted Hdocs Htf Htotal] Hord. unfold spimi_add.
  destruct (index !! term) as [pl|] eqn:Hlook.
  - (* the term has postings *)
    assert (∃ pl0 d' tf, pl = pl0 ++ [(d', tf)]) as (pl0 & d' & tf & ->).
    { destruct (last pl) as [[d' tf]|] eqn:Hlast.
      - apply last_Some in Hlast as [pl0 ->]. eauto.
      - apply last_None in Hlast as ->.
        assert (term ∈ pairs.*1) as [d Hd]%elem_of_keys
          by (apply Hkeys; eauto).
        apply (Hdocs _ _ _ Hlook) in Hd. by apply elem_of_nil in Hd. }
    unfold py_last. rewrite last_snoc. simpl.
    assert (d' ≤ docID) as Hle.
    { apply (Hord (term, d')); [|done].
      apply (Hdocs _ _ _ Hlook). rewrite fmap_app. set_solver. }
    pose proof (Hsorted _ _ Hlook) as Hpl. rewrite fmap_app in Hpl. simpl in Hpl.
    destruct (d' =? docID) eqn:Heq.
    + (* same document: the frequency goes up *)
      apply Nat.eqb_eq in Heq as ->.
      eexists. split; [done|].
      rewrite length_app. simpl.
      replace (pred (length pl0 + 1)) with (length pl0 + 0) by lia.
      rewrite insert_app_r. simpl.
      split.
      * intros t. rewrite lookup_insert_is_Some, elem_of_keys_snoc, <-Hkeys.
        destruct (decide (term = t)) as [->|]; naive_solver.
      * intros t pl. rewrite lookup_insert_Some.
        intros [[_ <-]|[_ Hl]]; [|by eapply Hsorted].
        by rewrite fmap_app.
      * intros t pl d. rewrite lookup_insert_Some, elem_of_pairs_snoc.
        intros [[<- <-]|[Hne Hl]].
        -- rewrite <-(Hdocs _ _ _ Hlook), !fmap_app. simpl.
           rewrite !elem_of_app, !list_elem_of_singleton. naive_solver.
        -- rewrite (Hdocs _ _ _ Hl). naive_solver.
      * intros t pl. rewrite lookup_insert_Some.
        intros [[_ <-]|[_ Hl]]; [|by eapply Htf].
        specialize (Htf _ _ Hlook).
        rewrite Forall_app in Htf |- *. destruct Htf as [Htf _].
        split; [done|]. repeat constructor. simpl. lia.
      * pose proof (total_tf_insert_present index term _
                      (pl0 ++ [(docID, tf + 1)]) Hlook) as Htot.
        rewrite !fmap_app, !sum_list_with_app in Htot. simpl in Htot.
        rewrite length_app. simpl. lia.
    + (* a new document for this term *)
      apply Nat.eqb_neq in Heq.
      eexists. split; [done|].
      split.
      * intros t. rewrite lookup_insert_is_Some, elem_of_keys_snoc, <-Hkeys.
        destruct (decide (term = t)) as [->|]; naive_solver.
      * intros t pl. rewrite lookup_insert_Some.
        intros [[_ <-]|[_ Hl]]; [|by eapply Hsorted].
        rewrite !fmap_app. simpl. rewrite <-app_assoc.
        apply StronglySorted_app_2.
        -- intros x y Hx Hy.
           assert (x < d') by
             (eapply StronglySorted_app_1_elem_of; [done..|set_solver]).
           set_solver by lia.
        -- by apply StronglySorted_app_1_l in Hpl.
        -- repeat constructor. lia.
      * intros t pl d. rewrite lookup_insert_Some, elem_of_pairs_snoc.
        intros [[<- <-]|[Hne Hl]].
        -- rewrite <-(Hdocs _ _ _ Hlook), !fmap_app. simpl.
           rewrite !elem_of_app, !list_elem_of_singleton. naive_solver.
        -- rewrite (Hdocs _ _ _ Hl). naive_solver.
      * intros t pl. rewrite lookup_insert_Some.
        intros [[_ <-]|[_ Hl]]; [|by eapply Htf].
        specialize (Htf _ _ Hlook).
        rewrite Forall_app. split; [done|]. by repeat constructor.
      * pose proof (total_tf_insert_present index term _
                      ((pl0 ++ [(d', tf)]) ++ [(docID, 1)]) Hlook) as Htot.
        rewrite !fmap_app, !sum_list_with_app in Htot. simpl in Htot.
        rewrite length_app. simpl. lia.
  - (* first posting of the term *)
    eexists. split; [done|].
    assert (∀ d, (term, d) ∉ pairs) as Hfresh.
    { intros d Hd. assert (is_Some (index !! term)) as [? ?]
        by (apply Hkeys, elem_of_keys; eauto).
      congruence. }
    split.
    + intros t. rewrite lookup_insert_is_Some, elem_of_keys_snoc, <-Hkeys.
      destruct (decide (term = t)) as [->|]; naive_solver.
    + intros t pl. rewrite lookup_insert_Some.
      intros [[_ <-]|[_ Hl]]; [|by eapply Hsorted].
      repeat constructor.
    + intros t pl d. rewrite lookup_insert_Some, elem_of_pairs_snoc.
      intros [[<- <-]|[Hne Hl]].
      * simpl. rewrite list_elem_of_singleton. naive_solver.
      * rewrite (Hdocs _ _ _ Hl). naive_solver.
    + intros t pl. rewrite lookup_insert_Some.
      intros [[_ <-]|[_ Hl]]; [|by eapply Htf].
      by repeat constructor.
    + rewrite total_tf_insert_fresh by done. rewrite length_app. simpl. lia.
Qed.

Lemma spimi_fold_inv pairs :
  StronglySorted doc_ordered pairs →
  ∃ index, spimi_fold pairs ∅ = Ok index ∧ spimi_inv pairs index.
Proof.
  induction pairs as [|[term docID] pairs IH] using rev_ind; intros Hsorted.
  { exists ∅. split; [done|apply spimi_inv_nil]. }
  apply StronglySorted_app in Hsorted as (Hord & Hpairs & _).
  destruct (IH Hpairs) as (index & Hfold & Hinv).
  destruct (spimi_add_inv pairs index term docID Hinv) as (index' & Hadd & Hinv').
  { intros q Hq. apply Hord; [done|]. by apply list_elem_of_singleton. }
  exists index'. split; [|done].
  rewrite spimi_fold_app, Hfold. simpl. by rewrite Hadd.
Qed.

(** *** [naive] groups what [spimi] would build, without frequencies *)

Lemma naive_add_bare term docID index index' :
  spimi_add term docID index = Ok index' →
  naive_add term docID (bare index) = Ok (bare index').
Proof.
  unfold spimi_add, naive_add, bare. rewrite lookup_fmap.
  destruct (index !! term) as [pl|] eqn:Hlook; simpl.
  - unfold py_last. rewrite fmap_last.
    destruct (last pl) as [[d tf]|] eqn:Hlast; simpl; [|done].
    destruct (d =? docID) eqn:Heq; intros [= <-].
    + apply Nat.eqb_eq in Heq as ->.
      rewrite fmap_insert, list_fmap_insert. simpl.
      rewrite list_insert_id.
      * rewrite insert_id; [done|]. by rewrite lookup_fmap, Hlook.
      * rewrite <-(length_fmap fst), <-last_lookup, fmap_last, Hlast. done.
    + by rewrite fmap_insert, fmap_app.
  - intros [= <-]. by rewrite fmap_insert.
Qed.

Lemma naive_group_bare pairs index index' :
  spimi_fold pairs index = Ok index' →
  naive_group pairs (bare index) = Ok (bare index').
Proof.
  revert index. induction pairs as [|p pairs IH]; intros index; simpl.
  { by intros [= <-]. }
  destruct (spimi_add p.1 p.2 index) as [index1|e] eqn:Hadd; [|done].
  simpl. intros Hfold.
  rewrite (naive_add_bare _ _ _ _ Hadd). simpl. by apply IH.
Qed.

Lemma naive_spec tokensList testCount index :
  spimi_fold
    (fromkeys (py_sorted pair_ltb
       (within_budget testCount (occurrences 1 tokensList)))) ∅ = Ok index →
  naive tokensList testCount = Ok (bare index).
Proof.
  intros Hfold. unfold naive. rewrite naive_pairs_spec.
  apply naive_group_bare in Hfold. unfold bare in Hfold at 1.
  by rewrite fmap_empty in Hfold.
Qed.

Lemma StronglySorted_lt_NoDup (l : list nat) : StronglySorted lt l → NoDup l.
Proof.
  induction 1 as [|x l Hl IH Hx]; constructor; [|done].
  rewrite Forall_forall in Hx. intros Hin. specialize (Hx _ Hin). lia.
Qed.

Lemma StronglySorted_lt_unique (l1 l2 : list nat) :
  StronglySorted lt l1 → StronglySorted lt l2 →
  (∀ x, x ∈ l1 ↔ x ∈ l2) → l1 = l2.
Proof.
  intros Hl1 Hl2 Hsame.
  apply (StronglySorted_unique_strong lt); [intros; lia|done..|].
  apply NoDup_Permutation; auto using StronglySorted_lt_NoDup.
Qed.

(** Both builders succeed, and the indexes they return are described
    by the occurrences inside the budget. *)
Lemma builders_run tokensList testCount :
  ∃ spimiIndex sortedIndex,
    spimi tokensList testCount = Ok spimiIndex
    ∧ naive tokensList testCount = Ok (bare sortedIndex)
    ∧ spimi_inv (within_budget testCount (occurrences 1 tokensList)) spimiIndex
    ∧ spimi_inv
        (fromkeys (py_sorted pair_ltb
           (within_budget testCount (occurrences 1 tokensList)))) sortedIndex.
Proof.
  destruct (spimi_fold_inv (within_budget testCount (occurrences 1 tokensList)))
    as (spimiIndex & Hspimi & Hinv). { apply within_budget_doc_ordered. }
  destruct (spimi_fold_inv
              (fromkeys (py_sorted pair_ltb
                 (within_budget testCount (occurrences 1 tokensList)))))
    as (sortedIndex & Hsorted & Hinv'). { apply sorted_pairs_doc_ordered. }
  exists spimiIndex, sortedIndex. split_and!; [|by apply naive_spec|done..].
  by rewrite spimi_spec.
Qed.

Lemma builders_lookup tokensList testCount :
  ∃ spimiIndex naiveIndex,
    spimi tokensList testCount = Ok spimiIndex
    ∧ naive tokensList testCount = Ok naiveIndex
    ∧ naiveIndex = bare spimiIndex
    ∧ spimi_inv (within_budget testCount (occurrences 1 tokensList)) spimiIndex.
Proof.
  destruct (builders_run tokensList testCount)
    as (spimiIndex & sortedIndex & Hspimi & Hnaive & Hinv & Hinv').
  exists spimiIndex, (bare sortedIndex). split_and!; [done..| |done].
  apply map_eq. intros term. unfold bare. rewrite !lookup_fmap.
  destruct (sortedIndex !! term) as [pl'|] eqn:Hl';
    destruct (spimiIndex !! term) as [pl|] eqn:Hl; simpl.
  - f_equal. apply StronglySorted_lt_unique.
    + by eapply (inv_sorted _ _ Hinv').
    + by eapply (inv_sorted _ _ Hinv).
    + intros d. rewrite (inv_docs _ _ Hinv' _ _ _ Hl'), (inv_docs _ _ Hinv _ _ _ Hl).
      apply sorted_pairs_elem_of.
  - exfalso. assert (is_Some (spimiIndex !! term)) as [? ?]; [|congruence].
    apply (inv_keys _ _ Hinv), elem_of_keys.
    assert (is_Some (sortedIndex !! term)) as [d Hd]%(inv_keys _ _ Hinv')%elem_of_keys
      by eauto.
    exists d. by apply (proj1 (sorted_pairs_elem_of _ _)).
  - exfalso. assert (is_Some (sortedIndex !! term)) as [? ?]; [|congruence].
    apply (inv_keys _ _ Hinv'), elem_of_keys.
    assert (is_Some (spimiIndex !! term)) as [d Hd]%(inv_keys _ _ Hinv)%elem_of_keys
      by eauto.
    exists d. by apply (proj2 (sorted_pairs_elem_of _ _)).
  - done.
Qed.

(** ** Properties of the builders *)

(** C1.  For every token corpus and every occurrence budget, [spimi]
    and [naive] both return an index, the two indexes have the same key
    set, and for every term the DocumentID list of the naive index is
    the list of DocumentIDs of the spimi postings of that term with the
    term frequencies dropped. *)
Theorem C1_builders_agree tokensList testCount :
  ∃ spimiIndex naiveIndex,
    spimi tokensList testCount = Ok spimiIndex
    ∧ naive tokensList testCount = Ok naiveIndex
    ∧ dom naiveIndex = dom spimiIndex
    ∧ ∀ term,
        naiveIndex !! term
        = (fun postingsList : list (nat * nat) => postingsList.*1)
            <$> spimiIndex !! term.
Proof.
  destruct (builders_lookup tokensList testCount)
    as (spimiIndex & naiveIndex & Hspimi & Hnaive & -> & _).
  exists spimiIndex, (bare spimiIndex). split_and!; [done..| |].
  - unfold bare. apply dom_fmap_L.
  - intros term. unfold bare. by rewrite lookup_fmap.
Qed.

(** C2.  For every token corpus and every (or no) occurrence budget,
    every postings list of the index [spimi] returns and every postings
    list of the index [naive] returns is strictly increasing by
    DocumentID, hence free of duplicate DocumentIDs. *)
Theorem C2_postings_strictly_increasing tokensList testCount :
  ∃ spimiIndex naiveIndex,
    spimi tokensList testCount = Ok spimiIndex
    ∧ naive tokensList testCount = Ok naiveIndex
    ∧ (∀ term postingsList,
         spimiIndex !! term = Some postingsList →
         StronglySorted lt (postingsList.*1) ∧ NoDup (postingsList.*1))
    ∧ (∀ term postingsList,
         naiveIndex !! term = Some postingsList →
         StronglySorted lt postingsList ∧ NoDup postingsList).
Proof.
  destruct (builders_lookup tokensList testCount)
    as (spimiIndex & naiveIndex & Hspimi & Hnaive & -> & Hinv).
  exists spimiIndex, (bare spimiIndex). split_and!; [done..| |].
  - intros term pl Hl. pose proof (inv_sorted _ _ Hinv _ _ Hl).
    auto using StronglySorted_lt_NoDup.
  - intros term pl. unfold bare. rewrite lookup_fmap_Some.
    intros (pl' & <- & Hl). pose proof (inv_sorted _ _ Hinv _ _ Hl).
    auto using StronglySorted_lt_NoDup.
Qed.

(** C6.  For every corpus with at least [N] token occurrences and every
    budget [N >= 1], the term frequencies of the index [spimi] builds
    with that budget sum to exactly [N], and [naive] has collected
    exactly [N] pairs when it starts to sort. *)
Theorem C6_budget_is_met tokensList N :
  1 ≤ N → N ≤ token_count tokensList →
  ∃ spimiIndex,
    spimi tokensList (Some N) = Ok spimiIndex
    ∧ total_tf spimiIndex = N
    ∧ length (naive_pairs tokensList (Some N)) = N.
Proof.
  intros HN Hcount.
  destruct (builders_lookup tokensList (Some N))
    as (spimiIndex & naiveIndex & Hspimi & _ & _ & Hinv).
  assert (length (within_budget (Some N) (occurrences 1 tokensList)) = N) as Hlen.
  { destruct N as [|n]; [lia|]. simpl within_budget.
    rewrite length_take, occurrences_length. lia. }
  exists spimiIndex. split_and!; [done| |].
  - by rewrite (inv_total _ _ Hinv).
  - by rewrite naive_pairs_spec.
Qed.

Lemma C6_budget_is_met_witness :
  ∃ spimiIndex,
    spimi [["the"; "cat"; "sat"]; ["the"; "dog"; "sat"]; ["cat"; "and"; "dog"]]%string
      (Some 4) = Ok spimiIndex
    ∧ total_tf spimiIndex = 4
    ∧ length (naive_pairs
        [["the"; "cat"; "sat"]; ["the"; "dog"; "sat"]; ["cat"; "and"; "dog"]]%string
        (Some 4)) = 4.
Proof.
  apply (C6_budget_is_met
    [["the"; "cat"; "sat"]; ["the"; "dog"; "sat"]; ["cat"; "and"; "dog"]]%string 4).
  - lia.
  - vm_compute. lia.
Defined.

(** *** Which document a DocumentID names *)

Lemma occurrences_document first tokensList term docID :
  (term, docID) ∈ occurrences first tokensList →
  first ≤ docID
  ∧ ∃ tokens, tokensList !! (docID - first) = Some tokens ∧ term ∈ tokens.
Proof.
  revert first. induction tokensList as [|doc rest IH]; intros first; simpl.
  { by intros ?%elem_of_nil. }
  rewrite elem_of_app, list_elem_of_fmap.
  intros [(token & [= -> ->] & Htoken)|Hin].
  - split; [done|]. exists doc. by rewrite Nat.sub_diag.
  - apply IH in Hin as (Hle & tokens & Hlook & Hterm).
    split; [lia|]. exists tokens. split; [|done].
    replace (docID - first) with (S (docID - S first)) by lia. done.
Qed.

Lemma occurrences_elem_of first tokensList term docID :
  (term, docID) ∈ occurrences first tokensList
  ↔ first ≤ docID
    ∧ ∃ tokens, tokensList !! (docID - first) = Some tokens ∧ term ∈ tokens.
Proof.
  split; [apply occurrences_document|].
  revert first. induction tokensList as [|doc rest IH]; intros first.
  { by intros (_ & tokens & ? & _). }
  intros (Hle & tokens & Hlook & Hterm). simpl. apply elem_of_app.
  destruct (decide (docID = first)) as [->|Hne].
  - left. rewrite Nat.sub_diag in Hlook. injection Hlook as ->.
    apply list_elem_of_fmap. by exists term.
  - right. apply IH. split; [lia|]. exists tokens. split; [|done].
    replace (docID - first) with (S (docID - S first)) in Hlook by lia. done.
Qed.

(** C10.  For every token corpus, a budget of [0] switches truncation
    off like no budget at all: [spimi] and [naive] return what the
    unbudgeted build returns.  Every token occurrence of the corpus is
    collected by [naive] and counted in the index of [spimi], and each
    of the two indexes has an entry for every token of the corpus, which
    lists exactly the documents that contain the token: neither index
    is empty unless the corpus has no token. *)
Theorem C10_zero_budget_is_no_budget tokensList :
  spimi tokensList (Some 0) = spimi tokensList None
  ∧ naive tokensList (Some 0) = naive tokensList None
  ∧ naive_pairs tokensList (Some 0) = occurrences 1 tokensList
  ∧ (∃ spimiIndex,
       spimi tokensList (Some 0) = Ok spimiIndex
       ∧ total_tf spimiIndex = token_count tokensList
       ∧ (∀ tokens token,
            tokens ∈ tokensList → token ∈ tokens →
            is_Some (spimiIndex !! token))
       ∧ ∀ term docID,
           docID ∈ (default [] (spimiIndex !! term)).*1
           ↔ 1 ≤ docID
             ∧ ∃ doc, tokensList !! (docID - 1) = Some doc ∧ term ∈ doc)
  ∧ ∃ naiveIndex,
      naive tokensList (Some 0) = Ok naiveIndex
      ∧ (∀ tokens token,
           tokens ∈ tokensList → token ∈ tokens →
           is_Some (naiveIndex !! token))
      ∧ ∀ term docID,
          docID ∈ default [] (naiveIndex !! term)
          ↔ 1 ≤ docID
            ∧ ∃ doc, tokensList !! (docID - 1) = Some doc ∧ term ∈ doc.
Proof.
  destruct (builders_lookup tokensList (Some 0))
    as (spimiIndex & naiveIndex & Hspimi & Hnaive & -> & Hinv).
  simpl in Hinv.
  assert (∀ tokens token,
            tokens ∈ tokensList → token ∈ tokens →
            is_Some (spimiIndex !! token)) as Hkeys.
  { intros tokens token [i Hi]%list_elem_of_lookup Htoken.
    apply (inv_keys _ _ Hinv), elem_of_keys. exists (S i).
    apply occurrences_elem_of. split; [lia|]. exists tokens.
    split; [|done]. by replace (S i - 1) with i by lia. }
  assert (∀ term docID,
            docID ∈ (default [] (spimiIndex !! term)).*1
            ↔ 1 ≤ docID
              ∧ ∃ doc, tokensList !! (docID - 1) = Some doc ∧ term ∈ doc)
    as Hdocs.
  { intros term docID. rewrite <-occurrences_elem_of.
    destruct (spimiIndex !! term) as [pl|] eqn:Hlook; simpl.
    - apply (inv_docs _ _ Hinv _ _ _ Hlook).
    - split; [by intros ?%elem_of_nil|].
      intros Hin. assert (is_Some (spimiIndex !! term)) as [? ?]; [|congruence].
      apply (inv_keys _ _ Hinv), elem_of_keys. eauto. }
  split_and!.
  - by rewrite !spimi_spec.
  - unfold naive. by rewrite !naive_pairs_spec.
  - by rewrite naive_pairs_spec.
  - exists spimiIndex. split_and!; [done| |done|done].
    rewrite (inv_total _ _ Hinv). apply occurrences_length.
  - exists (bare spimiIndex). split_and!; [done| |].
    + intros tokens token Htokens Htoken. unfold bare. rewrite lookup_fmap.
      by apply fmap_is_Some, (Hkeys tokens).
    + intros term docID. rewrite <-Hdocs. unfold bare. rewrite lookup_fmap.
      by destruct (spimiIndex !! term).
Qed.

(** ** The boolean operators *)

Lemma StronglySorted_lt_cons_inv (x : nat) l :
  StronglySorted lt (x :: l) → StronglySorted lt l ∧ ∀ y, y ∈ l → x < y.
Proof.
  intros [Hx Hl]%StronglySorted_cons. split; [done|].
  by rewrite Forall_forall in Hx.
Qed.

(** The two-pointer merge: what it appends to [result] is the common
    part of two ascending lists, in ascending order. *)
Lemma intersect_loop_spec pList1 pList2 result :
  StronglySorted lt pList1 → StronglySorted lt pList2 →
  ∃ common,
    intersect_loop result pList1 pList2 = result ++ common
    ∧ (∀ x, x ∈ common ↔ x ∈ pList1 ∧ x ∈ pList2)
    ∧ StronglySorted lt common.
Proof.
  revert pList2 result.
  induction pList1 as [|x rest1 IH1]; intros pList2 result H1 H2.
  { exists []. simpl. rewrite app_nil_r. split_and!; [done| |constructor].
    intros y. split; [by intros ?%elem_of_nil|]. by intros [?%elem_of_nil _]. }
  apply StronglySorted_lt_cons_inv in H1 as [H1 Hx].
  revert result. induction pList2 as [|y rest2 IH2]; intros result.
  { exists []. simpl. rewrite app_nil_r. split_and!; [done| |constructor].
    intros z. split; [by intros ?%elem_of_nil|]. by intros [_ ?%elem_of_nil]. }
  pose proof H2 as [H2' Hy]%StronglySorted_lt_cons_inv.
  simpl. destruct (x =? y) eqn:Hxy; [|destruct (x <? y) eqn:Hlt].
  - apply Nat.eqb_eq in Hxy as <-.
    destruct (IH1 rest2 (result ++ [x]) H1 H2') as (common & -> & Hin & Hsorted).
    exists (x :: common). split_and!.
    + by rewrite <-app_assoc.
    + intros z. rewrite !elem_of_cons, Hin. split; [naive_solver|].
      intros [[Hz|Hz1] [Hz'|Hz2]]; auto.
    + constructor; [done|]. apply Forall_forall. intros z Hz.
      apply Hx. by apply Hin in Hz as [? _].
  - apply Nat.ltb_lt in Hlt.
    destruct (IH1 (y :: rest2) result H1 H2) as (common & -> & Hin & Hsorted).
    exists common. split_and!; [done| |done].
    intros z. rewrite Hin, !elem_of_cons. split; [naive_solver|].
    intros [[->|Hz1] Hz2]; [|by auto].
    exfalso. destruct Hz2 as [->|Hz2]; [lia|]. apply Hy in Hz2. lia.
  - apply Nat.eqb_neq in Hxy. apply Nat.ltb_ge in Hlt.
    destruct (IH2 H2' result) as (common & Heq & Hin & Hsorted).
    exists common. split_and!; [exact Heq| |done].
    intros z. rewrite Hin, !elem_of_cons. split; [naive_solver|].
    intros [Hz1 [->|Hz2]]; [|by auto].
    exfalso. destruct Hz1 as [->|Hz1]; [lia|]. apply Hx in Hz1. lia.
Qed.

Lemma intersect_spec pList1 pList2 :
  StronglySorted lt pList1 → StronglySorted lt pList2 →
  (∀ x, x ∈ intersect pList1 pList2 ↔ x ∈ pList1 ∧ x ∈ pList2)
  ∧ StronglySorted lt (intersect pList1 pList2).
Proof.
  intros H1 H2. unfold intersect.
  by destruct (intersect_loop_spec pList1 pList2 [] H1 H2) as (common & -> & ? & ?).
Qed.

Lemma conjunction_loop_spec others finalPostingsList :
  StronglySorted lt finalPostingsList →
  Forall (StronglySorted lt) others →
  (∀ x, x ∈ conjunction_loop finalPostingsList others
        ↔ x ∈ finalPostingsList ∧ ∀ l, l ∈ others → x ∈ l)
  ∧ StronglySorted lt (conjunction_loop finalPostingsList others).
Proof.
  revert finalPostingsList.
  induction others as [|postingsList others IH];
    intros finalPostingsList Hfinal Hothers; simpl.
  { split; [|done]. intros x. split; [|tauto].
    intros Hx. split; [done|]. by intros l ?%elem_of_nil. }
  apply Forall_cons in Hothers as [Hpl Hothers].
  destruct (intersect_spec finalPostingsList postingsList Hfinal Hpl)
    as [Hin Hsorted].
  destruct (intersect finalPostingsList postingsList) as [|d common] eqn:Hcommon.
  - split; [|constructor]. intros x. split; [by intros ?%elem_of_nil|].
    intros [Hx Hall]. apply Hin. split; [done|]. apply Hall. by left.
  - destruct (IH (d :: common) Hsorted Hothers) as [Hin' Hsorted'].
    split; [|done]. intros x. rewrite Hin', Hin. split.
    + intros [[Hx1 Hx2] Hall]. split; [done|].
      intros l [->|Hl]%elem_of_cons; auto.
    + intros [Hx Hall]. split_and!; [done|apply Hall; by left|].
      intros l Hl. apply Hall. by right.
Qed.

Lemma omap_id_elem_of {A} (l : list (option A)) x :
  x ∈ omap id l ↔ Some x ∈ l.
Proof. rewrite list_elem_of_omap. naive_solver. Qed.

Lemma StronglySorted_le_NoDup_lt (l : list nat) :
  StronglySorted le l → NoDup l → StronglySorted lt l.
Proof.
  induction 1 as [|x l Hl IH Hx]; intros Hnd; [constructor|].
  apply NoDup_cons in Hnd as [Hnotin Hnd].
  constructor; [auto|].
  rewrite Forall_forall in Hx |- *. intros y Hy.
  specialize (Hx y Hy). assert (x ≠ y) by (by intros ->). lia.
Qed.

Lemma py_sorted_nat_StronglySorted (l : list nat) :
  StronglySorted le (py_sorted Nat.ltb l).
Proof.
  apply (StronglySorted_impl (fun a b => (b <? a) = false)).
  { intros a b. by rewrite Nat.ltb_ge. }
  apply py_sorted_StronglySorted.
  - intros a b _ _. rewrite Nat.ltb_lt, Nat.ltb_ge. lia.
  - intros a b c _ _ _. rewrite !Nat.ltb_ge. lia.
Qed.

(** [sorted(set(l))]: the distinct elements of [l] in ascending order. *)
Lemma sorted_set_spec (l : list nat) :
  StronglySorted lt (py_sorted Nat.ltb (elements (list_to_set l : gset nat)))
  ∧ ∀ x, x ∈ py_sorted Nat.ltb (elements (list_to_set l : gset nat)) ↔ x ∈ l.
Proof.
  split.
  - apply StronglySorted_le_NoDup_lt; [apply py_sorted_nat_StronglySorted|].
    rewrite py_sorted_Permutation. apply NoDup_elements.
  - intros x. by rewrite py_sorted_elem_of, elem_of_elements, elem_of_list_to_set.
Qed.

(** *** Query-term ranking *)

Lemma dict_count_sum (docFreq : list (nat * nat)) docID :
  sum_list ((dict_set docID (default 0 (dict_get docID docFreq) + 1) docFreq).*2)
  = sum_list (docFreq.*2) + 1.
Proof.
  induction docFreq as [|[k v] docFreq IH]; simpl; [done|].
  destruct (k =? docID); simpl; [lia|].
  fold_fmap. rewrite IH. lia.
Qed.

Lemma count_docs_sum postingsList docFreq :
  sum_list ((count_docs postingsList docFreq).*2)
  = sum_list (docFreq.*2) + length postingsList.
Proof.
  revert docFreq. induction postingsList as [|docID rest IH]; intros docFreq; simpl.
  { lia. }
  rewrite IH, dict_count_sum. lia.
Qed.

Lemma queryTermRank_sum postingsList :
  sum_list ((queryTermRank postingsList).*2) = length postingsList.
Proof.
  unfold queryTermRank.
  rewrite py_sorted_Permutation, count_docs_sum. done.
Qed.

(** ** Properties of the boolean operators *)

(** C4.  For every non-empty list of postings lists whose present lists
    are strictly ascending, [conjunction] returns the empty indicator
    [None] as soon as one list is absent; otherwise it returns a
    strictly ascending list that holds exactly the DocumentIDs common to
    all the lists. *)
Theorem C4_conjunction postingsLists :
  postingsLists ≠ [] →
  (∀ l, Some l ∈ postingsLists → StronglySorted lt l) →
  (None ∈ postingsLists → conjunction postingsLists = Ok None)
  ∧ (None ∉ postingsLists →
     ∃ result,
       conjunction postingsLists = Ok (Some result)
       ∧ StronglySorted lt result
       ∧ ∀ docID, docID ∈ result ↔ ∀ l, Some l ∈ postingsLists → docID ∈ l).
Proof.
  intros Hne Hsorted. unfold conjunction. split; intros Hnone.
  { by rewrite decide_True. }
  rewrite decide_False by done.
  set (lists := omap id postingsLists).
  pose proof (py_sorted_Permutation
                (fun a b : list nat => length a <? length b) lists) as Hperm.
  destruct (py_sorted _ lists) as [|finalPostingsList others].
  - exfalso. apply Permutation_nil in Hperm.
    destruct postingsLists as [|[l|] rest]; [done| |].
    + assert (l ∈ lists) as Hl by (apply omap_id_elem_of; by left).
      rewrite Hperm in Hl. by apply elem_of_nil in Hl.
    + apply Hnone. by left.
  - assert (∀ l, l ∈ finalPostingsList :: others ↔ Some l ∈ postingsLists)
      as Hlists.
    { intros l. by rewrite Hperm, <-omap_id_elem_of. }
    destruct (conjunction_loop_spec others finalPostingsList) as [Hin Hres].
    { apply Hsorted, Hlists. by left. }
    { apply Forall_forall. intros l Hl. apply Hsorted, Hlists. by right. }
    eexists. split_and!; [done..|].
    intros docID. rewrite Hin. split.
    + intros [Hfirst Hothers] l [->|Hl]%Hlists%elem_of_cons; auto.
    + intros Hall. split.
      * apply Hall, Hlists. by left.
      * intros l Hl. apply Hall, Hlists. by right.
Qed.

Lemma C4_conjunction_witness :
  (None ∈ [Some [1; 3]; Some [2; 3]; Some [3]] →
   conjunction [Some [1; 3]; Some [2; 3]; Some [3]] = Ok None)
  ∧ (None ∉ [Some [1; 3]; Some [2; 3]; Some [3]] →
     ∃ result,
       conjunction [Some [1; 3]; Some [2; 3]; Some [3]] = Ok (Some result)
       ∧ StronglySorted lt result
       ∧ ∀ docID, docID ∈ result
           ↔ ∀ l, Some l ∈ [Some [1; 3]; Some [2; 3]; Some [3]] → docID ∈ l).
Proof.
  apply (C4_conjunction [Some [1; 3]; Some [2; 3]; Some [3]]).
  - discriminate.
  - intros l Hl. rewrite !elem_of_cons, elem_of_nil in Hl.
    destruct Hl as [[= ->]|[[= ->]|[[= ->]|[]]]]; repeat constructor; lia.
Defined.

(** C5.  For every list of postings lists, with query-term ranking not
    requested, [disjunction] returns the empty indicator [None] when
    every list is absent; otherwise it returns the strictly ascending
    list whose elements are exactly the DocumentIDs of the union of the
    lists that are present. *)
Theorem C5_disjunction postingsLists :
  ((∀ p, p ∈ postingsLists → p = None) →
   disjunction postingsLists false = None)
  ∧ ((∃ l, Some l ∈ postingsLists) →
     ∃ result,
       disjunction postingsLists false = Some (Unranked result)
       ∧ StronglySorted lt result
       ∧ ∀ docID, docID ∈ result ↔ ∃ l, Some l ∈ postingsLists ∧ docID ∈ l).
Proof.
  unfold disjunction. split.
  - intros Hnone. destruct (omap id postingsLists) as [|l rest] eqn:Hvalid.
    { done. }
    assert (l ∈ omap id postingsLists) as Hl by (rewrite Hvalid; by left).
    apply omap_id_elem_of, Hnone in Hl. done.
  - intros (l & Hl).
    destruct (sorted_set_spec (mjoin (omap id postingsLists))) as [Hsorted Hin].
    destruct (omap id postingsLists) as [|l' rest] eqn:Hvalid.
    { apply omap_id_elem_of in Hl. rewrite Hvalid in Hl.
      by apply elem_of_nil in Hl. }
    eexists. split_and!; [done..|].
    intros docID. rewrite Hin, list_elem_of_join, <-Hvalid.
    setoid_rewrite omap_id_elem_of. naive_solver.
Qed.

(** C8.  For every list of postings lists with at least one list
    present and query-term ranking requested, the matchCounts of the
    [(DocumentID, matchCount)] pairs that [disjunction] hands back from
    [queryTermRank] sum to the sum of the lengths of the lists that are
    present. *)
Theorem C8_match_counts_sum postingsLists :
  (∃ l, Some l ∈ postingsLists) →
  ∃ ranked,
    disjunction postingsLists true = Some (Ranked ranked)
    ∧ sum_list (ranked.*2) = sum_list (length <$> omap id postingsLists).
Proof.
  intros (l & Hl). unfold disjunction.
  destruct (omap id postingsLists) as [|l' rest] eqn:Hvalid.
  { apply omap_id_elem_of in Hl. rewrite Hvalid in Hl. by apply elem_of_nil in Hl. }
  eexists. split; [done|].
  by rewrite queryTermRank_sum, py_sorted_length, length_join.
Qed.

Lemma C8_match_counts_sum_witness :
  ∃ ranked,
    disjunction [Some [1; 3]; None; Some [2; 3]] true = Some (Ranked ranked)
    ∧ sum_list (ranked.*2)
      = sum_list (length <$> omap id [Some [1; 3]; None; Some [2; 3]]).
Proof.
  apply (C8_match_counts_sum [Some [1; 3]; None; Some [2; 3]]).
  exists [1; 3]. by left.
Defined.

(** ** BM25 *)

Lemma dict_set_keys {V} (k : nat) (v : V) (d : list (nat * V)) :
  (dict_set k v d).*1 = if decide (k ∈ d.*1) then d.*1 else d.*1 ++ [k].
Proof.
  induction d as [|[k' v'] d IH]; simpl; [done|].
  destruct (k' =? k) eqn:Hk.
  - apply Nat.eqb_eq in Hk as ->. simpl.
    rewrite decide_True by (by left). done.
  - apply Nat.eqb_neq in Hk. simpl. fold_fmap. rewrite IH.
    destruct (decide (k ∈ d.*1)) as [Hin|Hin].
    + rewrite decide_True by (by right). done.
    + rewrite decide_False; [done|].
      intros [?|?]%elem_of_cons; [congruence|done].
Qed.

Lemma dict_set_keys_elem_of {V} (k k' : nat) (v : V) (d : list (nat * V)) :
  k' ∈ (dict_set k v d).*1 ↔ k' ∈ d.*1 ∨ k' = k.
Proof.
  rewrite dict_set_keys. destruct (decide (k ∈ d.*1)).
  - naive_solver.
  - rewrite elem_of_app, list_elem_of_singleton. done.
Qed.

Lemma dict_set_keys_NoDup {V} (k : nat) (v : V) (d : list (nat * V)) :
  NoDup (d.*1) → NoDup ((dict_set k v d).*1).
Proof.
  intros Hnd. rewrite dict_set_keys. destruct (decide (k ∈ d.*1)); [done|].
  apply NoDup_app. split_and!; [done| |apply NoDup_singleton].
  intros x Hx ->%list_elem_of_singleton. done.
Qed.

Section BM25_facts.
Context {F : Type} `{PyFloat F}.

Lemma py_index_end {A} (collection : list A) :
  py_index collection (length collection) = Raise IndexError.
Proof. unfold py_index. by rewrite lookup_ge_None_2. Qed.


(** The documents that get a score are candidates, each listed once. *)
Lemma bm25_postings_keys postingsList result collection k1 b idf L_avg
    rankedResults rankedResults' :
  bm25_postings postingsList result collection k1 b idf L_avg rankedResults
  = Ok rankedResults' →
  (∀ docID, docID ∈ rankedResults'.*1 →
            docID ∈ rankedResults.*1 ∨ docID ∈ result)
  ∧ (NoDup (rankedResults.*1) → NoDup (rankedResults'.*1)).
Proof.
  revert rankedResults.
  induction postingsList as [|[docID tf] rest IH]; intros rankedResults; simpl.
  { intros [= <-]. auto. }
  destruct (negb (docID =? 0) && bool_decide (docID ∈ result)) eqn:Hcand;
    [|apply IH].
  apply andb_true_iff in Hcand as [_ Hin%bool_decide_eq_true].
  destruct (py_index collection docID) as [doc|e]; [|done]. simpl.
  destruct (bm25_score k1 b idf L_avg tf (length doc)) as [score|e]; [|done].
  simpl. intros [Hkeys Hnd]%IH. split.
  - intros d [[Hd| ->]%dict_set_keys_elem_of|Hd]%Hkeys; auto.
  - intros Hnd'. by apply Hnd, dict_set_keys_NoDup.
Qed.

Lemma bm25_terms_keys queryTerms result index collection k1 b N L_avg
    rankedResults rankedResults' :
  bm25_terms queryTerms result index collection k1 b N L_avg rankedResults
  = Ok rankedResults' →
  (∀ docID, docID ∈ rankedResults'.*1 →
            docID ∈ rankedResults.*1 ∨ docID ∈ result)
  ∧ (NoDup (rankedResults.*1) → NoDup (rankedResults'.*1)).
Proof.
  revert rankedResults.
  induction queryTerms as [|term rest IH]; intros rankedResults; simpl.
  { intros [= <-]. auto. }
  destruct (bm25_postings _ result collection k1 b _ L_avg rankedResults)
    as [rankedResults1|e] eqn:Hpostings; [|done].
  simpl. apply bm25_postings_keys in Hpostings as [Hkeys1 Hnd1].
  intros [Hkeys Hnd]%IH. split; [|auto].
  intros d [Hd|Hd]%Hkeys; auto.
Qed.

(** A posting for DocumentID [len(collection)] among the candidates
    stops the scoring with an exception. *)
Lemma bm25_postings_raises postingsList result collection k1 b idf L_avg
    rankedResults tf :
  (length collection, tf) ∈ postingsList →
  length collection ≠ 0 →
  length collection ∈ result →
  ∃ e, bm25_postings postingsList result collection k1 b idf L_avg rankedResults
       = Raise e.
Proof.
  intros Hin HN Hcand. revert rankedResults.
  induction postingsList as [|[docID tf'] rest IH]; intros rankedResults.
  { by apply elem_of_nil in Hin. }
  simpl. apply elem_of_cons in Hin as [[= <- <-]|Hin].
  - rewrite bool_decide_eq_true_2 by done.
    replace (length collection =? 0) with false
      by (symmetry; by apply Nat.eqb_neq).
    simpl. rewrite py_index_end. eauto.
  - destruct (negb (docID =? 0) && bool_decide (docID ∈ result)); [|by apply IH].
    destruct (py_index collection docID) as [doc|e]; [|by eauto]. simpl.
    destruct (bm25_score k1 b idf L_avg tf' (length doc)) as [score|e];
      [|by eauto].
    simpl. by apply IH.
Qed.

Lemma bm25_terms_raises queryTerms result index collection k1 b N L_avg
    rankedResults term postingsList tf :
  term ∈ queryTerms →
  index !! term = Some postingsList →
  (length collection, tf) ∈ postingsList →
  length collection ≠ 0 →
  length collection ∈ result →
  ∃ e, bm25_terms queryTerms result index collection k1 b N L_avg rankedResults
       = Raise e.
Proof.
  intros Hterm Hlook Hin HN Hcand. revert rankedResults.
  induction queryTerms as [|term' rest IH]; intros rankedResults.
  { by apply elem_of_nil in Hterm. }
  simpl. apply elem_of_cons in Hterm as [<-|Hterm].
  - rewrite Hlook. simpl.
    edestruct (bm25_postings_raises postingsList) as [e ->]; [done..|]. eauto.
  - destruct (bm25_postings _ result collection k1 b _ L_avg rankedResults)
      as [rankedResults1|e]; [|by eauto].
    simpl. by apply IH.
Qed.

Lemma bm25_raises queryTerms result index collection k1 b term postingsList tf :
  term ∈ queryTerms →
  index !! term = Some postingsList →
  (length collection, tf) ∈ postingsList →
  length collection ∈ result →
  ∃ e, bm25 queryTerms (Some result) index collection k1 b = Raise e.
Proof.
  intros Hterm Hlook Hin Hcand. unfold bm25, py_idiv.
  destruct (length collection =? 0) eqn:HN; [by eauto|].
  apply Nat.eqb_neq in HN. simpl.
  edestruct (bm25_terms_raises queryTerms) as [e ->]; [done..|]. eauto.
Qed.

End BM25_facts.

(** *** What [bm25] accumulates for a document *)

Lemma dict_get_set {V} (k d : nat) (v : V) (dict : list (nat * V)) :
  dict_get d (dict_set k v dict)
  = if k =? d then Some v else dict_get d dict.
Proof.
  induction dict as [|[k' v'] dict IH]; simpl.
  { by destruct (k =? d). }
  destruct (k' =? k) eqn:Hk; simpl.
  - apply Nat.eqb_eq in Hk as ->. by destruct (k =? d).
  - rewrite IH. destruct (k =? d) eqn:Hd; [|done].
    apply Nat.eqb_eq in Hd as ->. by rewrite Hk.
Qed.

Section BM25_accumulation.
Context {F : Type} `{PyFloat F}.

Lemma accumulated_app d visits1 visits2 result collection (k1 b L_avg : F)
    current :
  accumulated d (visits1 ++ visits2) result collection k1 b L_avg current
  = accumulated d visits1 result collection k1 b L_avg current
    ≫= accumulated d visits2 result collection k1 b L_avg.
Proof.
  revert current.
  induction visits1 as [|[idf [docID tf]] rest IH]; intros current; simpl.
  { done. }
  destruct (negb (docID =? 0) && bool_decide (docID ∈ result)); [|apply IH].
  destruct (py_index collection docID) as [doc|e]; [|done]. simpl.
  destruct (bm25_score k1 b idf L_avg tf (length doc)) as [score|e]; [|done].
  simpl. apply IH.
Qed.

Lemma bm25_postings_accumulated d postingsList result collection
    (k1 b idf L_avg : F) rankedResults :
  (bm25_postings postingsList result collection k1 b idf L_avg rankedResults
   ≫= fun rankedResults' => Ok (dict_get d rankedResults'))
  = accumulated d ((fun posting => (idf, posting)) <$> postingsList)
      result collection k1 b L_avg (dict_get d rankedResults).
Proof.
  revert rankedResults.
  induction postingsList as [|[docID tf] rest IH]; intros rankedResults; simpl.
  { done. }
  destruct (negb (docID =? 0) && bool_decide (docID ∈ result)); [|apply IH].
  destruct (py_index collection docID) as [doc|e]; [|done]. simpl.
  destruct (bm25_score k1 b idf L_avg tf (length doc)) as [score|e]; [|done].
  simpl. rewrite IH, dict_get_set.
  destruct (docID =? d) eqn:Hd; [|done].
  by apply Nat.eqb_eq in Hd as ->.
Qed.

(** The accumulated score of every document, as [bm25] holds it when
    the loops are through: the sum, from [0.0], of the contributions
    [bm25_score] of its visited postings, each with the length of
    [collection[docID]]. *)
Lemma bm25_terms_accumulated d queryTerms result index collection
    (k1 b : F) N L_avg rankedResults :
  (bm25_terms queryTerms result index collection k1 b N L_avg rankedResults
   ≫= fun rankedResults' => Ok (dict_get d rankedResults'))
  = accumulated d (visited queryTerms index N) result collection k1 b L_avg
      (dict_get d rankedResults).
Proof.
  revert rankedResults.
  induction queryTerms as [|term rest IH]; intros rankedResults.
  { done. }
  change (visited (term :: rest) index N)
    with (((fun posting => (if length (default [] (index !! term)) =? 0
                            then of_int 0
                            else flog (fdiv (of_int N)
                                   (of_int (length (default [] (index !! term))))),
                            posting))
             <$> default [] (index !! term)) ++ visited rest index N).
  rewrite accumulated_app, <-bm25_postings_accumulated. simpl.
  destruct (bm25_postings _ result collection k1 b _ L_avg rankedResults)
    as [rankedResults1|e]; [|done].
  simpl. apply IH.
Qed.

End BM25_accumulation.

(** *** The documents behind the postings *)



(** ** Properties of the BM25 scorer *)

(** C3.  The claim makes [L_d] the length of the document a posting
    names.  [bm25] reads [collection[docID]] instead: on the one-document
    corpus the lookup for the only document raises [IndexError], and on
    a two-document corpus the score of document 1, which has one token,
    is computed from the three tokens of document 2. *)
Theorem C3_bm25_length_of_wrong_document {F : Type} `{PyFloat F} (k1 b : F) :
  (spimi [["cat"]]%string None
     ≫= fun index => bm25 ["cat"]%string (Some [1]) index [["cat"]]%string k1 b)
  = Raise IndexError
  ∧ ∀ L_avg : F,
      (spimi [["cat"]; ["dog"; "dog"; "dog"]]%string None
         ≫= fun index =>
              bm25_terms ["cat"]%string [1] index
                [["cat"]; ["dog"; "dog"; "dog"]]%string k1 b 2 L_avg [])
      = (bm25_score k1 b (flog (fdiv (of_int 2) (of_int 1))) L_avg 1 3
           ≫= fun score => Ok [(1, fadd (of_int 0) score)]).
Proof.
  split; [reflexivity|]. intros L_avg.
  set (built := spimi _ _). vm_compute in built. subst built.
  rewrite res_bind_Ok. cbn [bm25_terms].
  set (postingsList := default [] _). vm_compute in postingsList.
  subst postingsList. simpl.
  by destruct (bm25_score _ _ _ _ _ _).
Qed.

Section BM25_claims.
Context {F : Type} `{PyFloat F}.


Lemma bm25_postings_no_candidates postingsList collection (k1 b idf L_avg : F)
    rankedResults :
  bm25_postings postingsList [] collection k1 b idf L_avg rankedResults
  = Ok rankedResults.
Proof.
  induction postingsList as [|[docID tf] rest IH]; simpl; [done|].
  by rewrite andb_false_r.
Qed.

Lemma bm25_terms_no_candidates queryTerms index collection (k1 b : F) N L_avg
    rankedResults :
  bm25_terms queryTerms [] index collection k1 b N L_avg rankedResults
  = Ok rankedResults.
Proof.
  induction queryTerms as [|term rest IH]; simpl; [done|].
  by rewrite bm25_postings_no_candidates.
Qed.

(** C9.  On a non-empty collection, [bm25] returns [None] when there
    are no candidates at all.  When the scoring pass completes, the
    scored documents are distinct candidates; if every accumulated score
    equals [0.0], [bm25] returns [None] and no ranking; otherwise it
    returns the scored candidates, rearranged in descending order of
    score as far as [<] orders the scores. *)
Theorem C9_bm25_no_signal queryTerms index collection (k1 b : F) :
  collection ≠ [] →
  bm25 queryTerms None index collection k1 b = Ok None
  ∧ bm25 queryTerms (Some []) index collection k1 b = Ok None
  ∧ ∀ result rankedResults,
      bm25_terms queryTerms result index collection k1 b (length collection)
        (fdiv (of_int (sum_list (length <$> collection)))
           (of_int (length collection))) []
      = Ok rankedResults →
      NoDup (rankedResults.*1)
      ∧ (∀ docID, docID ∈ rankedResults.*1 → docID ∈ result)
      ∧ (Forall (fun item => feqb item.2 (of_int 0) = true) rankedResults →
         bm25 queryTerms (Some result) index collection k1 b = Ok None)
      ∧ (¬ Forall (fun item => feqb item.2 (of_int 0) = true) rankedResults →
         ∃ ranking,
           bm25 queryTerms (Some result) index collection k1 b
           = Ok (Some ranking)
           ∧ ranking ≡ₚ rankedResults
           ∧ (asym_on (fun x y : nat * F => fltb y.2 x.2) rankedResults →
              trans_on (fun x y : nat * F => fltb y.2 x.2) rankedResults →
              StronglySorted (fun x y => fltb x.2 y.2 = false) ranking)).
Proof.
  intros Hne. unfold bm25, py_idiv.
  replace (length collection =? 0) with false
    by (symmetry; apply Nat.eqb_neq; by destruct collection).
  simpl. split_and!; [done| |].
  { by rewrite bm25_terms_no_candidates. }
  intros result rankedResults Hterms. rewrite Hterms. simpl.
  apply bm25_terms_keys in Hterms as [Hkeys Hnd].
  split_and!.
  - apply Hnd. constructor.
  - intros docID [Hd|Hd]%Hkeys; [|done]. by apply elem_of_nil in Hd.
  - intros Hzero.
    replace (forallb _ rankedResults) with true; [done|].
    symmetry. apply forallb_forall. intros item Hitem%list_elem_of_In.
    by apply (proj1 (Forall_forall _ _) Hzero).
  - intros Hnonzero.
    destruct (forallb _ rankedResults) eqn:Hall.
    { destruct Hnonzero. apply Forall_forall. intros item Hitem.
      rewrite forallb_forall in Hall. by apply Hall, list_elem_of_In. }
    eexists. split_and!; [done|apply py_sorted_Permutation|].
    apply py_sorted_StronglySorted.
Qed.

End BM25_claims.


Lemma C9_bm25_no_signal_witness :
  bm25 ["cat"; "dog"]%string None (<["cat"%string := [(1, 2)]]> ∅)
    [["cat"; "cat"]; ["dog"]]%string 1.5%float 0.75%float = Ok None
  ∧ bm25 ["cat"; "dog"]%string (Some []) (<["cat"%string := [(1, 2)]]> ∅)
      [["cat"; "cat"]; ["dog"]]%string 1.5%float 0.75%float = Ok None
  ∧ ∀ result rankedResults,
      bm25_terms ["cat"; "dog"]%string result (<["cat"%string := [(1, 2)]]> ∅)
        [["cat"; "cat"]; ["dog"]]%string 1.5%float 0.75%float
        (length [["cat"; "cat"]; ["dog"]]%string)
        (fdiv (of_int (sum_list (length <$> [["cat"; "cat"]; ["dog"]]%string)))
           (of_int (length [["cat"; "cat"]; ["dog"]]%string))) []
      = Ok rankedResults →
      NoDup (rankedResults.*1)
      ∧ (∀ docID, docID ∈ rankedResults.*1 → docID ∈ result)
      ∧ (Forall (fun item => feqb item.2 (of_int 0) = true) rankedResults →
         bm25 ["cat"; "dog"]%string (Some result) (<["cat"%string := [(1, 2)]]> ∅)
           [["cat"; "cat"]; ["dog"]]%string 1.5%float 0.75%float = Ok None)
      ∧ (¬ Forall (fun item => feqb item.2 (of_int 0) = true) rankedResults →
         ∃ ranking,
           bm25 ["cat"; "dog"]%string (Some result)
             (<["cat"%string := [(1, 2)]]> ∅)
             [["cat"; "cat"]; ["dog"]]%string 1.5%float 0.75%float
           = Ok (Some ranking)
           ∧ ranking ≡ₚ rankedResults
           ∧ (asym_on (fun x y : nat * float => fltb y.2 x.2) rankedResults →
              trans_on (fun x y : nat * float => fltb y.2 x.2) rankedResults →
              StronglySorted (fun x y => fltb x.2 y.2 = false) ranking)).
Proof.
  apply (C9_bm25_no_signal ["cat"; "dog"]%string (<["cat"%string := [(1, 2)]]> ∅)
           [["cat"; "cat"]; ["dog"]]%string 1.5%float 0.75%float).
  discriminate.
Defined.

Lemma StronglySorted_comparable {A} (R : relation A) l x y :
  StronglySorted R l → x ∈ l → y ∈ l → x = y ∨ R x y ∨ R y x.
Proof.
  induction 1 as [|z l Hl IH Hz]; [by intros ?%elem_of_nil|].
  rewrite Forall_forall in Hz.
  intros [->|Hx]%elem_of_cons [->|Hy]%elem_of_cons; auto.
Qed.

(** C9 without the two provisos fails, on binary64.

    On an empty collection [bm25] raises [ZeroDivisionError] at line
    144, candidates or not, and reports nothing.

    With [k1 = 1e308], which passes the test [k1 >= 0] of [getK1B], the
    posting [(2, 2)] of the index [spimi] builds is scored [inf / inf],
    a NaN.  The scores are not all [0.0], so [bm25] returns a ranking;
    it lists the documents 1, 2, 3 in the order they were scored
    (Python's sort takes the three scores for one run and leaves them
    in place, and so does [py_sorted]), with the lower score of
    document 1 in front of the higher score of document 3.  Whatever the arrangement, a list that
    holds these three scores is not in descending order: [>=] does not
    hold between a NaN and another score, either way round. *)
Lemma C9_counterexample :
  bm25 (F:=float) ["cat"]%string (Some []) ∅ [] 1.5%float 0.75%float
  = Raise ZeroDivisionError
  ∧ Console.fgeb 0x1.1ccf385ebc8ap+1023%float (of_int 0) = true
  ∧ ∃ index ranking,
      spimi [["cat"]; ["cat"; "cat"]; ["cat"; "a"; "b"; "c"; "d"; "e"]; ["z"]]%string
        None = Ok index
      ∧ bm25 ["cat"]%string (Some [1; 2; 3]) index
          [["cat"]; ["cat"; "cat"]; ["cat"; "a"; "b"; "c"; "d"; "e"]; ["z"]]%string
          0x1.1ccf385ebc8ap+1023%float 0.75%float
        = Ok (Some ranking)
      ∧ ranking.*1 = [1; 2; 3]
      ∧ ¬ StronglySorted (fun x y : nat * float => fltb x.2 y.2 = false) ranking
      ∧ ∀ arranged,
          arranged ≡ₚ ranking →
          ¬ StronglySorted
              (fun x y : nat * float => Console.fgeb x.2 y.2 = true) arranged.
Proof.
  split; [vm_compute; reflexivity|]. split; [vm_compute; reflexivity|].
  eexists _, _. split; [vm_compute; reflexivity|].
  split; [vm_compute; reflexivity|]. split; [reflexivity|]. split.
  - intros Hsorted. apply StronglySorted_cons in Hsorted as [Hfirst _].
    apply Forall_cons in Hfirst as [_ Hfirst].
    apply Forall_cons in Hfirst as [Hlt _]. vm_compute in Hlt. discriminate.
  - intros arranged Hperm Hsorted.
    match type of Hperm with
    | _ ≡ₚ ?first :: ?second :: _ =>
        destruct (StronglySorted_comparable _ arranged first second Hsorted)
          as [Heq|[Hge|Hge]]
    end.
    + rewrite Hperm. left.
    + rewrite Hperm. right. left.
    + discriminate.
    + vm_compute in Hge. discriminate.
    + vm_compute in Hge. discriminate.
Qed.

(** ** The scenario of the specification

    corpus = doc1 "the cat sat", doc2 "the dog sat", doc3 "cat and dog". *)

Example scenario_cat :
  (naive [["the"; "cat"; "sat"]; ["the"; "dog"; "sat"]; ["cat"; "and"; "dog"]]%string
     None
   ≫= fun index => Ok (index !! "cat"%string))
  = Ok (Some [1; 3]).
Proof. vm_compute. reflexivity. Qed.

Example scenario_cat_or_dog :
  disjunction [Some [1; 3]; Some [2; 3]] false = Some (Unranked [1; 2; 3]).
Proof. vm_compute. reflexivity. Qed.

Example scenario_cat_and_dog :
  conjunction [Some [1; 3]; Some [2; 3]] = Ok (Some [3]).
Proof. vm_compute. reflexivity. Qed.

Example scenario_cat_or_dog_ranked :
  disjunction [Some [1; 3]; Some [2; 3]] true
  = Some (Ranked [(3, 2); (1, 1); (2, 1)]).
Proof. vm_compute. reflexivity. Qed.

Example scenario_spimi_frequencies :
  (spimi [["the"; "cat"; "the"]; ["the"]]%string None
   ≫= fun index => Ok (index !! "the"%string))
  = Ok (Some [(1, 2); (2, 1)]).
Proof. vm_compute. reflexivity. Qed.

(** A budget that stops inside the second document. *)
Example scenario_budget :
  (spimi [["the"; "cat"; "sat"]; ["the"; "dog"; "sat"]; ["cat"; "and"; "dog"]]%string
     (Some 4)
   ≫= fun index => Ok (index !! "the"%string, index !! "dog"%string))
  = Ok (Some [(1, 1); (2, 1)], None).
Proof. vm_compute. reflexivity. Qed.

(** On binary64: "cat dog" over candidates 1 and 2.  Document 3 is not
    a candidate, so its posting is skipped and nothing is read past the
    end; both scores are [ln 1.5], computed from the length of the
    document that follows. *)
Example scenario_bm25 :
  bm25 ["cat"; "dog"]%string (Some [1; 2])
    (<["cat"%string := [(1, 1); (3, 1)]]> (<["dog"%string := [(2, 1); (3, 1)]]> ∅))
    [["the"; "cat"; "sat"]; ["the"; "dog"; "sat"]; ["cat"; "and"; "dog"]]%string
    1.5%float 0.75%float
  = Ok (Some [(1, 0x1.9f323ecbf984cp-2%float); (2, 0x1.9f323ecbf984cp-2%float)]).
Proof. vm_compute. reflexivity. Qed.


(** * Further properties of the code *)

(** ** The builders: what the index says about the corpus *)

Lemma filter_eq_absent {A} `{EqDecision A} (x : A) (l : list A) :
  x ∉ l → filter (fun y => y = x) l = [].
Proof.
  induction l as [|y l IH]; [done|].
  intros Hnotin. rewrite filter_cons, decide_False.
  - apply IH. intros Hin. apply Hnotin. by right.
  - intros ->. apply Hnotin. by left.
Qed.

Lemma filter_pairs_fmap (term : string) (docID d : nat) (tokens : list string) :
  length (filter (fun p => p = (term, docID))
            ((fun token => (token, d)) <$> tokens))
  = if decide (d = docID) then occurrences_in term tokens else 0.
Proof.
  unfold occurrences_in.
  induction tokens as [|t tokens IH]; [by destruct (decide _)|].
  rewrite fmap_cons, !filter_cons.
  destruct (decide (d = docID)) as [->|Hne].
  - destruct (decide (t = term)) as [->|Ht].
    + rewrite decide_True by done. simpl. by rewrite IH.
    + rewrite decide_False by congruence. done.
  - rewrite decide_False by congruence. done.
Qed.

(** Occurrences of [(term, docID)] in the corpus are the occurrences of
    [term] in the document numbered [docID]. *)
Lemma occurrences_count first tokensList term docID doc :
  first ≤ docID → tokensList !! (docID - first) = Some doc →
  length (filter (fun p => p = (term, docID)) (occurrences first tokensList))
  = occurrences_in term doc.
Proof.
  revert first. induction tokensList as [|tokens rest IH]; intros first Hle Hlook.
  { done. }
  simpl. rewrite filter_app, length_app, filter_pairs_fmap.
  destruct (decide (first = docID)) as [->|Hne].
  - rewrite Nat.sub_diag in Hlook. injection Hlook as ->.
    rewrite filter_eq_absent; [simpl; lia|].
    intros Hin%occurrences_lower_bound. simpl in Hin. lia.
  - replace (docID - first) with (S (docID - S first)) in Hlook by lia.
    rewrite (IH (S first)); [done|lia|done].
Qed.

Lemma count_pairs_snoc (pairs : list (string * nat)) p q :
  length (filter (fun x => x = q) (pairs ++ [p]))
  = length (filter (fun x => x = q) pairs) + (if decide (p = q) then 1 else 0).
Proof.
  rewrite filter_app, length_app, filter_cons, filter_nil.
  by destruct (decide (p = q)).
Qed.

(** One more occurrence keeps the frequencies equal to the counts. *)
Lemma spimi_add_counts pairs index term docID index' :
  spimi_inv pairs index → counts_pairs pairs index →
  (∀ q, q ∈ pairs → doc_ordered q (term, docID)) →
  spimi_add term docID index = Ok index' →
  counts_pairs (pairs ++ [(term, docID)]) index'.
Proof.
  intros [Hkeys Hsorted Hdocs Htf Htotal] Hcounts Hord. unfold spimi_add.
  assert (∀ t pl d tf, t ≠ term → index !! t = Some pl → (d, tf) ∈ pl →
            tf = length (filter (fun p => p = (t, d)) (pairs ++ [(term, docID)])))
    as Hother.
  { intros t pl d tf Hne Hl Hin. rewrite count_pairs_snoc, decide_False by congruence.
    rewrite Nat.add_0_r. by eapply Hcounts. }
  destruct (index !! term) as [old|] eqn:Hlook.
  - destruct (last old) as [[d' tf']|] eqn:Hlast; unfold py_last; rewrite Hlast;
      simpl; [|done].
    apply last_Some in Hlast as [pl0 ->].
    assert (d' ≤ docID) as Hle.
    { apply (Hord (term, d')); [|done].
      apply (Hdocs _ _ _ Hlook). rewrite fmap_app. set_solver. }
    pose proof (Hsorted _ _ Hlook) as Hpl. rewrite fmap_app in Hpl. simpl in Hpl.
    assert (∀ d tf, (d, tf) ∈ pl0 → d < d') as Hbefore.
    { intros d tf Hin. eapply StronglySorted_app_1_elem_of; [done| |by left].
      apply list_elem_of_fmap. by exists (d, tf). }
    destruct (d' =? docID) eqn:Heq; intros [= <-].
    + apply Nat.eqb_eq in Heq as ->.
      rewrite length_app. simpl.
      replace (pred (length pl0 + 1)) with (length pl0 + 0) by lia.
      rewrite insert_app_r. simpl.
      intros t pl d tf. rewrite lookup_insert_Some.
      intros [[<- <-]|[Hne Hl]]; [|by eapply Hother].
      rewrite elem_of_app, list_elem_of_singleton, count_pairs_snoc.
      intros [Hin|[= -> ->]].
      * rewrite decide_False by (apply Hbefore in Hin; intros [= ?]; lia).
        rewrite Nat.add_0_r. apply (Hcounts _ _ _ _ Hlook). set_solver.
      * rewrite decide_True by done. f_equal.
        apply (Hcounts _ _ _ _ Hlook). set_solver.
    + apply Nat.eqb_neq in Heq.
      intros t pl d tf. rewrite lookup_insert_Some.
      intros [[<- <-]|[Hne Hl]]; [|by eapply Hother].
      rewrite elem_of_app, list_elem_of_singleton, count_pairs_snoc.
      intros [Hin|[= -> ->]].
      * assert (d ≤ d') as Hd.
        { apply elem_of_app in Hin as [Hin|[= -> _]%list_elem_of_singleton];
            [apply Hbefore in Hin; lia|done]. }
        rewrite decide_False by (intros [= ?]; lia).
        rewrite Nat.add_0_r. by apply (Hcounts _ _ _ _ Hlook).
      * rewrite decide_True by done.
        rewrite filter_eq_absent; [done|].
        intros Hin%(Hdocs _ _ _ Hlook). rewrite fmap_app in Hin. simpl in Hin.
        apply elem_of_app in Hin as [Hin| ->%list_elem_of_singleton]; [|lia].
        apply list_elem_of_fmap in Hin as ([d tf] & -> & Hin).
        apply Hbefore in Hin. simpl in *. lia.
  - intros [= <-] t pl d tf. rewrite lookup_insert_Some.
    intros [[<- <-]|[Hne Hl]]; [|by eapply Hother].
    intros [= -> ->]%list_elem_of_singleton.
    rewrite count_pairs_snoc, decide_True by done.
    rewrite filter_eq_absent; [done|].
    intros Hin. assert (is_Some (index !! term)) as [? ?]; [|congruence].
    apply Hkeys, elem_of_keys. eauto.
Qed.

Lemma spimi_fold_counts pairs :
  StronglySorted doc_ordered pairs →
  ∃ index, spimi_fold pairs ∅ = Ok index
           ∧ spimi_inv pairs index ∧ counts_pairs pairs index.
Proof.
  induction pairs as [|[term docID] pairs IH] using rev_ind; intros Hsorted.
  { exists ∅. split_and!; [done|apply spimi_inv_nil|].
    intros term pl docID tf. by rewrite lookup_empty. }
  apply StronglySorted_app in Hsorted as (Hord & Hpairs & _).
  destruct (IH Hpairs) as (index & Hfold & Hinv & Hcounts).
  assert (∀ q, q ∈ pairs → doc_ordered q (term, docID)) as Hord'.
  { intros q Hq. apply Hord; [done|]. by apply list_elem_of_singleton. }
  destruct (spimi_add_inv pairs index term docID Hinv Hord')
    as (index' & Hadd & Hinv').
  exists index'. split_and!; [|done|by eapply spimi_add_counts].
  rewrite spimi_fold_app, Hfold. simpl. by rewrite Hadd.
Qed.

(** X1.  The index [naive] builds without a budget lists, for every
    term, exactly the DocumentIDs of the documents that contain it
    (documents are numbered from 1 in corpus order), and has no entry
    for a term that occurs in no document. *)
Theorem X1_naive_index_documents tokensList :
  ∃ index,
    naive tokensList None = Ok index
    ∧ (∀ term docID,
         docID ∈ default [] (index !! term)
         ↔ 1 ≤ docID
           ∧ ∃ doc, tokensList !! (docID - 1) = Some doc ∧ term ∈ doc)
    ∧ (∀ term,
         index !! term = None ↔ ∀ doc, doc ∈ tokensList → term ∉ doc).
Proof.
  destruct (builders_lookup tokensList None)
    as (spimiIndex & naiveIndex & _ & Hnaive & -> & Hinv).
  simpl in Hinv. exists (bare spimiIndex). split_and!; [done| |].
  - intros term docID. unfold bare. rewrite lookup_fmap.
    rewrite <-occurrences_elem_of.
    destruct (spimiIndex !! term) as [pl|] eqn:Hlook; simpl.
    + apply (inv_docs _ _ Hinv _ _ _ Hlook).
    + split; [by intros ?%elem_of_nil|].
      intros Hin. assert (is_Some (spimiIndex !! term)) as [? ?]; [|congruence].
      apply (inv_keys _ _ Hinv), elem_of_keys. eauto.
  - intros term. unfold bare. rewrite lookup_fmap, fmap_None.
    rewrite eq_None_not_Some, (inv_keys _ _ Hinv), elem_of_keys.
    setoid_rewrite occurrences_elem_of. split.
    + intros Hnone doc [i Hi]%list_elem_of_lookup Hterm. apply Hnone.
      exists (S i). split; [lia|]. exists doc. split; [|done].
      by replace (S i - 1) with i by lia.
    + intros Hall (docID & _ & doc & Hlook & Hterm).
      eapply Hall; [|done]. by eapply list_elem_of_lookup_2.
Qed.

(** X2.  The index [spimi] builds without a budget holds a posting
    [(docID, tf)] for a term exactly when the document numbered [docID]
    contains the term [tf] times, [tf] being at least 1. *)
Theorem X2_spimi_index_frequencies tokensList :
  ∃ index,
    spimi tokensList None = Ok index
    ∧ ∀ term docID tf,
        (docID, tf) ∈ default [] (index !! term)
        ↔ 1 ≤ docID ∧ 1 ≤ tf
          ∧ ∃ doc, tokensList !! (docID - 1) = Some doc
                   ∧ occurrences_in term doc = tf.
Proof.
  destruct (spimi_fold_counts (occurrences 1 tokensList))
    as (index & Hfold & Hinv & Hcounts).
  { apply (within_budget_doc_ordered None). }
  exists index. split; [by rewrite spimi_spec|].
  intros term docID tf. split.
  - destruct (index !! term) as [pl|] eqn:Hlook; simpl;
      [|by intros ?%elem_of_nil].
    intros Hin.
    assert ((term, docID) ∈ occurrences 1 tokensList)
      as (Hpos & doc & Hdoc & Hterm)%occurrences_elem_of.
    { apply (inv_docs _ _ Hinv _ _ _ Hlook), list_elem_of_fmap.
      by exists (docID, tf). }
    split_and!; [done| |].
    + pose proof (inv_tf _ _ Hinv _ _ Hlook) as Htf.
      rewrite Forall_forall in Htf. by apply (Htf (docID, tf)).
    + exists doc. split; [done|].
      rewrite (Hcounts _ _ _ _ Hlook Hin). symmetry.
      by apply occurrences_count.
  - intros (Hpos & Htf & doc & Hdoc & Hcount).
    assert (term ∈ doc) as Hterm.
    { unfold occurrences_in in Hcount.
      destruct (filter (fun token => token = term) doc) as [|t l] eqn:Hfilter;
        [simpl in Hcount; lia|].
      assert (t ∈ filter (fun token => token = term) doc) as Ht
        by (rewrite Hfilter; by left).
      by apply list_elem_of_filter in Ht as [-> ?]. }
    assert ((term, docID) ∈ occurrences 1 tokensList) as Hocc.
    { apply occurrences_elem_of. eauto. }
    assert (is_Some (index !! term)) as [pl Hlook].
    { apply (inv_keys _ _ Hinv), elem_of_keys. eauto. }
    rewrite Hlook. simpl.
    apply (inv_docs _ _ Hinv _ _ _ Hlook) in Hocc.
    apply list_elem_of_fmap in Hocc as ([d tf'] & Hd & Hin).
    simpl in Hd. subst d.
    replace tf with tf'; [done|].
    rewrite (Hcounts _ _ _ _ Hlook Hin), <-Hcount.
    by apply occurrences_count.
Qed.

Lemma within_budget_all N (pairs : list (string * nat)) :
  length pairs ≤ N → within_budget (Some N) pairs = pairs.
Proof. intros Hlen. destruct N as [|n]; [done|]. by apply take_ge. Qed.

(** X3.  A budget that the corpus does not reach changes nothing: both
    builders return what they return without a budget. *)
Theorem X3_budget_beyond_corpus tokensList N :
  token_count tokensList ≤ N →
  spimi tokensList (Some N) = spimi tokensList None
  ∧ naive tokensList (Some N) = naive tokensList None.
Proof.
  intros Hlen.
  assert (within_budget (Some N) (occurrences 1 tokensList)
          = occurrences 1 tokensList) as Hall.
  { apply within_budget_all. by rewrite occurrences_length. }
  split.
  - by rewrite !spimi_spec, Hall.
  - unfold naive. by rewrite !naive_pairs_spec, Hall.
Qed.

Lemma X3_budget_beyond_corpus_witness :
  spimi [["the"; "cat"]; ["the"; "dog"]]%string (Some 4)
  = spimi [["the"; "cat"]; ["the"; "dog"]]%string None
  ∧ naive [["the"; "cat"]; ["the"; "dog"]]%string (Some 4)
    = naive [["the"; "cat"]; ["the"; "dog"]]%string None.
Proof.
  apply (X3_budget_beyond_corpus [["the"; "cat"]; ["the"; "dog"]]%string 4).
  vm_compute. lia.
Defined.

Lemma occurrences_cut_corpus first N tokensList :
  1 ≤ N →
  occurrences first (cut_corpus N tokensList)
  = take N (occurrences first tokensList).
Proof.
  revert first N. induction tokensList as [|tokens rest IH]; intros first N HN.
  { simpl. by rewrite take_nil. }
  simpl. destruct (N <=? length tokens) eqn:Hcut.
  - apply Nat.leb_le in Hcut. simpl.
    rewrite app_nil_r, take_app_le by (by rewrite length_fmap).
    by rewrite fmap_take.
  - apply Nat.leb_gt in Hcut. simpl.
    rewrite IH by lia.
    pose proof (length_fmap (fun token : string => (token, first)) tokens)
      as Hlen.
    rewrite take_app, Hlen. f_equal. symmetry. apply take_ge.
    rewrite Hlen. lia.
Qed.

(** X4.  A build with a budget of [N >= 1] is the unbudgeted build of
    the corpus cut off after its first [N] tokens: the documents before
    the cut keep their numbers, the document the cut falls in keeps its
    tokens before the cut, and later documents are not indexed. *)
Theorem X4_budgeted_build_of_cut_corpus tokensList N :
  1 ≤ N →
  spimi tokensList (Some N) = spimi (cut_corpus N tokensList) None
  ∧ naive tokensList (Some N) = naive (cut_corpus N tokensList) None.
Proof.
  intros HN.
  assert (within_budget (Some N) (occurrences 1 tokensList)
          = occurrences 1 (cut_corpus N tokensList)) as Hcut.
  { rewrite occurrences_cut_corpus by done. by destruct N as [|n]; [lia|]. }
  split.
  - by rewrite !spimi_spec, Hcut.
  - unfold naive. by rewrite !naive_pairs_spec, Hcut.
Qed.

Lemma X4_budgeted_build_of_cut_corpus_witness :
  spimi [["the"; "cat"; "sat"]; ["the"; "dog"; "sat"]]%string (Some 4)
  = spimi (cut_corpus 4 [["the"; "cat"; "sat"]; ["the"; "dog"; "sat"]]%string) None
  ∧ naive [["the"; "cat"; "sat"]; ["the"; "dog"; "sat"]]%string (Some 4)
    = naive (cut_corpus 4 [["the"; "cat"; "sat"]; ["the"; "dog"; "sat"]]%string)
        None.
Proof.
  apply (X4_budgeted_build_of_cut_corpus
           [["the"; "cat"; "sat"]; ["the"; "dog"; "sat"]]%string 4).
  lia.
Defined.

(** ** The boolean operators on arbitrary lists *)

(** Whatever the two lists are, the merge appends to [result] a list
    that can be read off each of them in order. *)
Lemma intersect_loop_sublist pList1 pList2 result :
  ∃ common,
    intersect_loop result pList1 pList2 = result ++ common
    ∧ common `sublist_of` pList1 ∧ common `sublist_of` pList2.
Proof.
  revert pList2 result.
  induction pList1 as [|x rest1 IH1]; intros pList2 result.
  { exists []. simpl. rewrite app_nil_r. split_and!; [done|done|apply sublist_nil_l]. }
  revert result. induction pList2 as [|y rest2 IH2]; intros result.
  { exists []. simpl. rewrite app_nil_r. split_and!; [done|apply sublist_nil_l|done]. }
  simpl. destruct (x =? y) eqn:Hxy; [|destruct (x <? y)].
  - apply Nat.eqb_eq in Hxy as <-.
    destruct (IH1 rest2 (result ++ [x])) as (common & -> & Hsub1 & Hsub2).
    exists (x :: common). rewrite <-app_assoc.
    split_and!; [done|by apply sublist_skip..].
  - destruct (IH1 (y :: rest2) result) as (common & -> & Hsub1 & Hsub2).
    exists common. split_and!; [done|by apply sublist_cons|done].
  - destruct (IH2 result) as (common & Heq & Hsub1 & Hsub2).
    exists common. split_and!; [exact Heq|done|by apply sublist_cons].
Qed.

Lemma conjunction_loop_sound others finalPostingsList x :
  x ∈ conjunction_loop finalPostingsList others →
  x ∈ finalPostingsList ∧ ∀ l, l ∈ others → x ∈ l.
Proof.
  revert finalPostingsList.
  induction others as [|postingsList others IH]; intros finalPostingsList; simpl.
  { intros Hx. split; [done|]. by intros l ?%elem_of_nil. }
  destruct (intersect_loop_sublist finalPostingsList postingsList [])
    as (common & Hcommon & Hsub1 & Hsub2).
  change (intersect_loop [] finalPostingsList postingsList)
    with (intersect finalPostingsList postingsList) in Hcommon.
  rewrite Hcommon. simpl.
  destruct common as [|d common]; [by intros ?%elem_of_nil|].
  intros [Hx Hall]%IH. split.
  - by eapply elem_of_sublist.
  - intros l [->|Hl]%elem_of_cons; [by eapply elem_of_sublist|by apply Hall].
Qed.

(** The lists [conjunction] works on, once no list is absent. *)
Lemma conjunction_present postingsLists :
  None ∉ postingsLists →
  conjunction postingsLists
  = match py_sorted (fun a b : list nat => length a <? length b)
            (omap id postingsLists) with
    | [] => Raise IndexError
    | finalPostingsList :: others =>
        Ok (Some (conjunction_loop finalPostingsList others))
    end.
Proof. intros Hnone. unfold conjunction. by rewrite decide_False. Qed.

Lemma omap_id_nil {A} (l : list (option A)) :
  None ∉ l → omap id l = [] → l = [].
Proof.
  destruct l as [|[x|] l]; [done|done|].
  intros Hnone. destruct Hnone. by left.
Qed.

(** What [conjunction] returns for ascending lists. *)
Lemma conjunction_spec postingsLists :
  postingsLists ≠ [] → None ∉ postingsLists →
  (∀ l, Some l ∈ postingsLists → StronglySorted lt l) →
  ∃ result,
    conjunction postingsLists = Ok (Some result)
    ∧ StronglySorted lt result
    ∧ ∀ docID, docID ∈ result ↔ ∀ l, Some l ∈ postingsLists → docID ∈ l.
Proof.
  intros Hne Hnone Hsorted. rewrite conjunction_present by done.
  pose proof (py_sorted_Permutation
                (fun a b : list nat => length a <? length b)
                (omap id postingsLists)) as Hperm.
  destruct (py_sorted _ (omap id postingsLists)) as [|finalPostingsList others].
  { apply Permutation_nil in Hperm. by apply omap_id_nil in Hperm. }
  assert (∀ l, l ∈ finalPostingsList :: others ↔ Some l ∈ postingsLists)
    as Hlists.
  { intros l. by rewrite Hperm, <-omap_id_elem_of. }
  destruct (conjunction_loop_spec others finalPostingsList) as [Hin Hres].
  { apply Hsorted, Hlists. by left. }
  { apply Forall_forall. intros l Hl. apply Hsorted, Hlists. by right. }
  eexists. split_and!; [done..|].
  intros docID. rewrite Hin. split.
  - intros [Hfirst Hothers] l [->|Hl]%Hlists%elem_of_cons; auto.
  - intros Hall. split.
    + apply Hall, Hlists. by left.
    + intros l Hl. apply Hall, Hlists. by right.
Qed.

(** X5.  On any two lists, ascending or not, [intersect] returns a list
    that is a sublist of each: it never returns a DocumentID that one
    of the lists lacks, never repeats one more often than either list
    does, and never changes the order. *)
Theorem X5_intersect_sublist pList1 pList2 :
  intersect pList1 pList2 `sublist_of` pList1
  ∧ intersect pList1 pList2 `sublist_of` pList2.
Proof.
  unfold intersect.
  by destruct (intersect_loop_sublist pList1 pList2 []) as (common & -> & ? & ?).
Qed.

(** X6.  On strictly ascending lists [intersect] is commutative and
    idempotent. *)
Theorem X6_intersect_commutative_idempotent pList1 pList2 :
  StronglySorted lt pList1 → StronglySorted lt pList2 →
  intersect pList1 pList2 = intersect pList2 pList1
  ∧ intersect pList1 pList1 = pList1.
Proof.
  intros H1 H2.
  destruct (intersect_spec pList1 pList2 H1 H2) as [Hin12 Hs12].
  destruct (intersect_spec pList2 pList1 H2 H1) as [Hin21 Hs21].
  destruct (intersect_spec pList1 pList1 H1 H1) as [Hin11 Hs11].
  split; apply StronglySorted_lt_unique; try done.
  - intros x. rewrite Hin12, Hin21. tauto.
  - intros x. rewrite Hin11. tauto.
Qed.

Lemma X6_intersect_commutative_idempotent_witness :
  intersect [1; 3; 5] [3; 4; 5] = intersect [3; 4; 5] [1; 3; 5]
  ∧ intersect [1; 3; 5] [1; 3; 5] = [1; 3; 5].
Proof.
  apply (X6_intersect_commutative_idempotent [1; 3; 5] [3; 4; 5]);
    repeat constructor; lia.
Defined.

(** X7.  [conjunction] raises exactly when it is given no lists at all
    (then [IndexError], from [sortedPostingsLists[0]]); on one list or
    more it returns. *)
Theorem X7_conjunction_raises_on_no_lists postingsLists :
  (conjunction postingsLists = Raise IndexError ↔ postingsLists = [])
  ∧ (postingsLists ≠ [] → ∃ result, conjunction postingsLists = Ok result).
Proof.
  assert (postingsLists ≠ [] → ∃ result, conjunction postingsLists = Ok result)
    as Hreturns.
  { intros Hne. destruct (decide (None ∈ postingsLists)) as [Hnone|Hnone].
    { exists None. unfold conjunction. by rewrite decide_True. }
    rewrite conjunction_present by done.
    pose proof (py_sorted_Permutation
                  (fun a b : list nat => length a <? length b)
                  (omap id postingsLists)) as Hperm.
    destruct (py_sorted _ (omap id postingsLists)) as [|first others]; [|by eauto].
    apply Permutation_nil in Hperm. by apply omap_id_nil in Hperm. }
  split; [|done]. split.
  - intros Hraise. destruct postingsLists as [|p rest]; [done|].
    destruct Hreturns as [result Hresult]; [done|]. congruence.
  - by intros ->.
Qed.

(** X8.  For strictly ascending lists the order of the lists does not
    matter to [conjunction]: rearranged arguments give the same result
    (AND is commutative and associative). *)
Theorem X8_conjunction_order_irrelevant postingsLists1 postingsLists2 :
  postingsLists1 ≡ₚ postingsLists2 →
  (∀ l, Some l ∈ postingsLists1 → StronglySorted lt l) →
  conjunction postingsLists1 = conjunction postingsLists2.
Proof.
  intros Hperm Hsorted.
  destruct (decide (postingsLists1 = [])) as [->|Hne].
  { by apply Permutation_nil in Hperm as ->. }
  assert (postingsLists2 ≠ []) as Hne'.
  { intros ->. by apply Permutation_nil_r in Hperm. }
  destruct (decide (None ∈ postingsLists1)) as [Hnone|Hnone].
  { unfold conjunction. rewrite !decide_True; [done| |done]. by rewrite <-Hperm. }
  assert (None ∉ postingsLists2) as Hnone' by by rewrite <-Hperm.
  destruct (conjunction_spec postingsLists1) as (r1 & -> & Hs1 & Hin1); [done..|].
  destruct (conjunction_spec postingsLists2) as (r2 & -> & Hs2 & Hin2); [done..| |].
  { intros l Hl. apply Hsorted. by rewrite Hperm. }
  do 2 f_equal. apply StronglySorted_lt_unique; [done..|].
  intros docID. rewrite Hin1, Hin2. by setoid_rewrite Hperm.
Qed.

Lemma X8_conjunction_order_irrelevant_witness :
  conjunction [Some [1; 3]; Some [3]; Some [2; 3]]
  = conjunction [Some [2; 3]; Some [1; 3]; Some [3]].
Proof.
  apply (X8_conjunction_order_irrelevant
           [Some [1; 3]; Some [3]; Some [2; 3]] [Some [2; 3]; Some [1; 3]; Some [3]]).
  - symmetry. apply (Permutation_cons_append [Some [1; 3]; Some [3]] (Some [2; 3])).
  - intros l Hl. rewrite !elem_of_cons, elem_of_nil in Hl.
    destruct Hl as [[= ->]|[[= ->]|[[= ->]|[]]]]; repeat constructor; lia.
Defined.

(** X9.  Whatever the lists are, ascending or not, every DocumentID
    that [conjunction] returns occurs in every one of the lists. *)
Theorem X9_conjunction_sound postingsLists result docID :
  conjunction postingsLists = Ok (Some result) →
  docID ∈ result →
  ∀ l, Some l ∈ postingsLists → docID ∈ l.
Proof.
  intros Hconj Hin l Hl.
  destruct (decide (None ∈ postingsLists)) as [Hnone|Hnone].
  { unfold conjunction in Hconj. by rewrite decide_True in Hconj. }
  rewrite conjunction_present in Hconj by done.
  pose proof (py_sorted_Permutation
                (fun a b : list nat => length a <? length b)
                (omap id postingsLists)) as Hperm.
  destruct (py_sorted _ (omap id postingsLists)) as [|first others]; [done|].
  injection Hconj as <-.
  apply conjunction_loop_sound in Hin as [Hfirst Hothers].
  apply omap_id_elem_of in Hl. rewrite <-Hperm in Hl.
  apply elem_of_cons in Hl as [->|Hl]; auto.
Qed.

Lemma X9_conjunction_sound_witness :
  5 ∈ [5; 1; 3].
Proof.
  apply (X9_conjunction_sound [Some [5; 1; 3]; Some [3; 5]] [5] 5).
  - vm_compute. reflexivity.
  - left.
  - left.
Defined.

Lemma classic_present {A} (l : list (option A)) :
  (∃ x, Some x ∈ l) ∨ ¬ (∃ x, Some x ∈ l).
Proof.
  induction l as [|[x|] l IH].
  - right. by intros [x ?%elem_of_nil].
  - left. exists x. by left.
  - destruct IH as [[x Hx]|Hnone].
    + left. exists x. by right.
    + right. intros [x [?|Hx]%elem_of_cons]; [done|]. apply Hnone. eauto.
Qed.

(** What [disjunction] returns without ranking. *)
Lemma disjunction_spec postingsLists :
  (∃ l, Some l ∈ postingsLists) →
  ∃ result,
    disjunction postingsLists false = Some (Unranked result)
    ∧ StronglySorted lt result
    ∧ ∀ docID, docID ∈ result ↔ ∃ l, Some l ∈ postingsLists ∧ docID ∈ l.
Proof.
  intros (l & Hl). unfold disjunction.
  destruct (sorted_set_spec (mjoin (omap id postingsLists))) as [Hsorted Hin].
  destruct (omap id postingsLists) as [|l' rest] eqn:Hvalid.
  { apply omap_id_elem_of in Hl. rewrite Hvalid in Hl. by apply elem_of_nil in Hl. }
  eexists. split_and!; [done..|].
  intros docID. rewrite Hin, list_elem_of_join, <-Hvalid.
  setoid_rewrite omap_id_elem_of. naive_solver.
Qed.

Lemma disjunction_all_absent postingsLists queryTermRanking :
  (¬ ∃ l, Some l ∈ postingsLists) →
  disjunction postingsLists queryTermRanking = None.
Proof.
  intros Hnone. unfold disjunction.
  destruct (omap id postingsLists) as [|l rest] eqn:Hvalid; [done|].
  destruct Hnone. exists l. apply omap_id_elem_of. rewrite Hvalid. by left.
Qed.

(** X10.  Whatever the lists are, what [conjunction] returns for them
    is contained in what [disjunction] returns for them: AND never
    finds a document that OR misses. *)
Theorem X10_conjunction_within_disjunction postingsLists result :
  conjunction postingsLists = Ok (Some result) →
  ∃ union,
    disjunction postingsLists false = Some (Unranked union)
    ∧ ∀ docID, docID ∈ result → docID ∈ union.
Proof.
  intros Hconj.
  assert (∃ l, Some l ∈ postingsLists) as Hpresent.
  { destruct postingsLists as [|[l|] rest].
    - done.
    - exists l. by left.
    - unfold conjunction in Hconj. rewrite decide_True in Hconj by (by left).
      done. }
  destruct (disjunction_spec postingsLists Hpresent) as (union & -> & _ & Hin).
  exists union. split; [done|]. intros docID Hdoc. apply Hin.
  destruct (decide (None ∈ postingsLists)) as [Hnone|Hnone].
  { unfold conjunction in Hconj. by rewrite decide_True in Hconj. }
  rewrite conjunction_present in Hconj by done.
  pose proof (py_sorted_Permutation
                (fun a b : list nat => length a <? length b)
                (omap id postingsLists)) as Hperm.
  destruct (py_sorted _ (omap id postingsLists)) as [|first others]; [done|].
  injection Hconj as <-.
  apply conjunction_loop_sound in Hdoc as [Hfirst _].
  exists first. split; [|done].
  apply omap_id_elem_of. rewrite <-Hperm. by left.
Qed.

Lemma X10_conjunction_within_disjunction_witness :
  ∃ union,
    disjunction [Some [1; 3]; Some [2; 3]] false = Some (Unranked union)
    ∧ ∀ docID, docID ∈ [3] → docID ∈ union.
Proof.
  apply (X10_conjunction_within_disjunction [Some [1; 3]; Some [2; 3]] [3]).
  vm_compute. reflexivity.
Defined.

(** X11.  Without ranking, what [disjunction] returns depends only on
    the set of DocumentIDs of the lists that are present: the order of
    the lists, lists given twice, absent lists, and the order and
    repetitions inside a list make no difference. *)
Theorem X11_disjunction_depends_on_set postingsLists1 postingsLists2 :
  ((∃ l, Some l ∈ postingsLists1) ↔ (∃ l, Some l ∈ postingsLists2)) →
  (∀ docID, (∃ l, Some l ∈ postingsLists1 ∧ docID ∈ l)
            ↔ (∃ l, Some l ∈ postingsLists2 ∧ docID ∈ l)) →
  disjunction postingsLists1 false = disjunction postingsLists2 false.
Proof.
  intros Hpresent Hsame.
  destruct (classic_present postingsLists1) as [H1|H1].
  - destruct (disjunction_spec postingsLists1 H1) as (r1 & -> & Hs1 & Hin1).
    destruct (disjunction_spec postingsLists2 (proj1 Hpresent H1))
      as (r2 & -> & Hs2 & Hin2).
    do 2 f_equal. apply StronglySorted_lt_unique; [done..|].
    intros docID. by rewrite Hin1, Hin2.
  - rewrite !disjunction_all_absent; [done| |done].
    intros H2. by apply H1, Hpresent.
Qed.

Lemma X11_disjunction_depends_on_set_witness :
  disjunction [Some [3; 1]; None; Some [2; 3]] false
  = disjunction [Some [1; 2; 3; 3]] false.
Proof.
  apply (X11_disjunction_depends_on_set
           [Some [3; 1]; None; Some [2; 3]] [Some [1; 2; 3; 3]]).
  - split; intros _; eexists; by left.
  - intros docID. split.
    + intros (l & Hl & Hdoc). exists [1; 2; 3; 3]. split; [by left|].
      apply elem_of_cons in Hl as [[= ->]|Hl]; [set_solver|].
      apply elem_of_cons in Hl as [?|Hl]; [done|].
      apply elem_of_cons in Hl as [[= ->]|Hl]; [set_solver|].
      by apply elem_of_nil in Hl.
    + intros (l & Hl & Hdoc).
      apply elem_of_cons in Hl as [[= ->]|Hl]; [|by apply elem_of_nil in Hl].
      assert (docID = 1 ∨ docID = 2 ∨ docID = 3) as [-> | [-> | ->]] by set_solver.
      * exists [3; 1]. set_solver.
      * exists [2; 3]. set_solver.
      * exists [3; 1]. set_solver.
Defined.

(** ** Query-term ranking: counts and order *)

(** The sort is stable: elements that the comparison does not separate
    stay in the order [R0] they came in. *)
Lemma py_insert_stable {A} (ltb : A → A → bool) (R0 : relation A) x l :
  asym_on ltb (x :: l) → trans_on ltb (x :: l) →
  Forall (R0 x) l →
  StronglySorted (fun a b => ltb b a = false ∧ (ltb a b = false → R0 a b)) l →
  StronglySorted (fun a b => ltb b a = false ∧ (ltb a b = false → R0 a b))
    (py_insert ltb x l).
Proof.
  intros Hasym Htrans Hx Hl. induction Hl as [|y l Hl IH Hy]; simpl.
  { repeat constructor. }
  apply Forall_cons in Hx as [Hxy Hx].
  destruct (ltb y x) eqn:Hyx.
  - constructor.
    + apply IH; [| |done].
      * intros a c Ha Hc. apply Hasym; elem_of_tauto.
      * intros a c e Ha Hc He. apply Htrans; elem_of_tauto.
    + rewrite py_insert_Permutation. constructor; [|done].
      split; [apply Hasym; elem_of_tauto|]. congruence.
  - constructor; [by constructor|].
    constructor; [by split|].
    rewrite Forall_forall in Hy, Hx |- *. intros z Hz.
    destruct (Hy z Hz) as [Hzy _]. split; [|by auto].
    apply (Htrans x y z); elem_of_tauto.
Qed.

Lemma py_sorted_stable {A} (ltb : A → A → bool) (R0 : relation A) l :
  asym_on ltb l → trans_on ltb l →
  StronglySorted R0 l →
  StronglySorted (fun a b => ltb b a = false ∧ (ltb a b = false → R0 a b))
    (py_sorted ltb l).
Proof.
  intros Hasym Htrans Hl.
  induction Hl as [|x l Hl IH Hx]; simpl; [constructor|].
  apply py_insert_stable.
  - intros a c Ha Hc. apply Hasym.
    + revert Ha. rewrite !elem_of_cons, py_sorted_elem_of. tauto.
    + revert Hc. rewrite !elem_of_cons, py_sorted_elem_of. tauto.
  - intros a c e Ha Hc He. apply Htrans.
    + revert Ha. rewrite !elem_of_cons, py_sorted_elem_of. tauto.
    + revert Hc. rewrite !elem_of_cons, py_sorted_elem_of. tauto.
    + revert He. rewrite !elem_of_cons, py_sorted_elem_of. tauto.
  - by rewrite py_sorted_Permutation.
  - apply IH.
    + intros a c Ha Hc. apply Hasym; by apply list_elem_of_further.
    + intros a c e Ha Hc He. apply Htrans; by apply list_elem_of_further.
Qed.

Lemma dict_get_elem_of {V} (k : nat) (v : V) (dict : list (nat * V)) :
  NoDup (dict.*1) → (k, v) ∈ dict ↔ dict_get k dict = Some v.
Proof.
  induction dict as [|[k' v'] dict IH]; simpl.
  { intros _. split; [by intros ?%elem_of_nil|done]. }
  intros [Hnotin Hnd]%NoDup_cons. rewrite elem_of_cons.
  destruct (k' =? k) eqn:Hk.
  - apply Nat.eqb_eq in Hk as ->. split.
    + intros [[= ->]|Hin]; [done|].
      destruct Hnotin. apply list_elem_of_fmap. by exists (k, v).
    + intros [= ->]. by left.
  - apply Nat.eqb_neq in Hk. rewrite <-IH by done. split.
    + intros [[= -> ->]|Hin]; [done|done].
    + by right.
Qed.

Lemma count_docs_get postingsList docFreq docID :
  dict_get docID (count_docs postingsList docFreq)
  = match length (filter (fun d => d = docID) postingsList) with
    | 0 => dict_get docID docFreq
    | S n => Some (default 0 (dict_get docID docFreq) + S n)
    end.
Proof.
  revert docFreq. induction postingsList as [|d rest IH]; intros docFreq.
  { done. }
  simpl. rewrite IH, dict_get_set, filter_cons.
  destruct (decide (d = docID)) as [->|Hne].
  - rewrite Nat.eqb_refl. simpl.
    destruct (length (filter (fun d => d = docID) rest)); simpl; f_equal; lia.
  - replace (d =? docID) with false by (symmetry; by apply Nat.eqb_neq). done.
Qed.

Lemma count_docs_keys_NoDup postingsList docFreq :
  NoDup (docFreq.*1) → NoDup ((count_docs postingsList docFreq).*1).
Proof.
  revert docFreq. induction postingsList as [|d rest IH]; intros docFreq Hnd.
  { done. }
  simpl. by apply IH, dict_set_keys_NoDup.
Qed.

(** Counting an ascending list creates the keys in ascending order. *)
Lemma count_docs_keys_sorted postingsList docFreq :
  StronglySorted le postingsList →
  StronglySorted lt (docFreq.*1) →
  (∀ k d, k ∈ docFreq.*1 → d ∈ postingsList → k ≤ d) →
  StronglySorted lt ((count_docs postingsList docFreq).*1).
Proof.
  intros Hl. revert docFreq.
  induction Hl as [|d rest Hrest IH Hd]; intros docFreq Hkeys Hbound.
  { done. }
  simpl. rewrite Forall_forall in Hd. apply IH.
  - rewrite dict_set_keys. destruct (decide (d ∈ docFreq.*1)) as [Hin|Hin].
    { done. }
    apply StronglySorted_app_2; [|done|repeat constructor].
    intros k d' Hk Hd'%list_elem_of_singleton. subst d'.
    assert (k ≤ d) by (apply Hbound; [done|by left]).
    assert (k ≠ d) by (by intros ->). lia.
  - intros k d' [Hk| ->]%dict_set_keys_elem_of Hd'.
    + apply Hbound; [done|by right].
    + by apply Hd.
Qed.

(** X12.  For every list, [queryTermRank] returns each DocumentID of
    the list once, paired with the number of times it occurs in the
    list, in descending order of that number. *)
Theorem X12_queryTermRank_counts postingsList :
  NoDup ((queryTermRank postingsList).*1)
  ∧ (∀ docID score,
       (docID, score) ∈ queryTermRank postingsList
       ↔ docID ∈ postingsList
         ∧ score = length (filter (fun d => d = docID) postingsList))
  ∧ StronglySorted (fun x y : nat * nat => y.2 ≤ x.2)
      (queryTermRank postingsList).
Proof.
  unfold queryTermRank.
  assert (NoDup ((count_docs postingsList []).*1)) as Hnd.
  { apply count_docs_keys_NoDup. constructor. }
  split_and!.
  - by rewrite py_sorted_Permutation.
  - intros docID score.
    rewrite py_sorted_elem_of, dict_get_elem_of, count_docs_get by done.
    destruct (filter (fun d => d = docID) postingsList) as [|d l] eqn:Hfilter;
      simpl.
    + split; [done|]. intros [Hin _].
      assert (docID ∈ filter (fun d => d = docID) postingsList) as Hin'
        by (by apply list_elem_of_filter).
      rewrite Hfilter in Hin'. by apply elem_of_nil in Hin'.
    + assert (d ∈ filter (fun d => d = docID) postingsList) as Hd
        by (rewrite Hfilter; by left).
      apply list_elem_of_filter in Hd as [-> Hd].
      split; [by intros [= <-]|]. by intros [_ ->].
  - apply (StronglySorted_impl (fun a b : nat * nat => (a.2 <? b.2) = false)).
    { intros a b. by rewrite Nat.ltb_ge. }
    apply py_sorted_StronglySorted.
    + intros a c _ _. rewrite Nat.ltb_lt, Nat.ltb_ge. lia.
    + intros a c e _ _ _. rewrite !Nat.ltb_ge. lia.
Qed.

Lemma StronglySorted_keys {V} (dict : list (nat * V)) :
  StronglySorted lt (dict.*1) →
  StronglySorted (fun a b : nat * V => a.1 < b.1) dict.
Proof.
  induction dict as [|[k v] dict IH]; [constructor|].
  rewrite fmap_cons. intros [Hk Hrest]%StronglySorted_cons.
  constructor; [by apply IH|].
  rewrite Forall_fmap in Hk. done.
Qed.

Lemma count_join_NoDup (lists : list (list nat)) docID :
  Forall NoDup lists →
  length (filter (fun d => d = docID) (mjoin lists))
  = length (filter (fun l => docID ∈ l) lists).
Proof.
  induction 1 as [|l lists Hl _ IH]; [done|].
  change (mjoin (l :: lists)) with (l ++ mjoin lists).
  rewrite filter_app, length_app, IH, filter_cons.
  assert (length (filter (fun d => d = docID) l)
          = if decide (docID ∈ l) then 1 else 0) as ->.
  { clear -Hl. induction Hl as [|d l Hnotin Hl IH]; [done|].
    rewrite filter_cons. destruct (decide (d = docID)) as [->|Hne].
    - rewrite decide_True by (by left). simpl.
      rewrite IH, decide_False by done. done.
    - rewrite IH. destruct (decide (docID ∈ l)) as [Hin|Hin].
      + rewrite decide_True by (by right). done.
      + rewrite decide_False; [done|].
        intros [?|?]%elem_of_cons; [congruence|done]. }
  by destruct (decide (docID ∈ l)).
Qed.

(** X13.  With query-term ranking, and lists that are each free of
    duplicates, [disjunction] pairs every DocumentID of the union with
    the number of lists that contain it, and orders the pairs by
    descending count, equal counts by ascending DocumentID. *)
Theorem X13_ranked_disjunction postingsLists :
  (∃ l, Some l ∈ postingsLists) →
  (∀ l, Some l ∈ postingsLists → NoDup l) →
  ∃ ranked,
    disjunction postingsLists true = Some (Ranked ranked)
    ∧ (∀ docID score,
         (docID, score) ∈ ranked
         ↔ 1 ≤ score
           ∧ score = length (filter (fun l => docID ∈ l)
                               (omap id postingsLists)))
    ∧ StronglySorted
        (fun x y : nat * nat => y.2 < x.2 ∨ (x.2 = y.2 ∧ x.1 < y.1)) ranked.
Proof.
  intros (l & Hl) Hnd. unfold disjunction.
  assert (Forall NoDup (omap id postingsLists)) as Hlists.
  { apply Forall_forall. intros l' Hl'. by apply Hnd, omap_id_elem_of. }
  destruct (omap id postingsLists) as [|l' rest] eqn:Hvalid.
  { apply omap_id_elem_of in Hl. rewrite Hvalid in Hl. by apply elem_of_nil in Hl. }
  simpl negb. cbv iota. rewrite <-Hvalid in *. clear Hvalid l' rest.
  set (union := mjoin (omap id postingsLists)).
  eexists. split_and!; [done| |].
  - intros docID score. unfold queryTermRank.
    rewrite py_sorted_elem_of, dict_get_elem_of, count_docs_get
      by (apply count_docs_keys_NoDup; constructor).
    rewrite py_sorted_Permutation. unfold union.
    rewrite count_join_NoDup by done. simpl.
    destruct (length (filter _ (omap id postingsLists))) as [|n].
    + split; [done|]. intros [? ->]. lia.
    + split; [intros [= <-]; split; [lia|done]|]. by intros [_ ->].
  - unfold queryTermRank.
    eapply StronglySorted_impl;
      [|apply (py_sorted_stable (fun x y : nat * nat => y.2 <? x.2)
                 (fun a b : nat * nat => a.1 < b.1))].
    + intros a b. simpl. rewrite !Nat.ltb_ge. intros [Hba Htie].
      destruct (decide (b.2 < a.2)); [by left|]. right.
      assert (a.2 ≤ b.2) as Hab by lia. split; [lia|auto].
    + intros a c _ _. rewrite Nat.ltb_lt, Nat.ltb_ge. lia.
    + intros a c e _ _ _. rewrite !Nat.ltb_ge. lia.
    + apply StronglySorted_keys, count_docs_keys_sorted.
      * apply py_sorted_nat_StronglySorted.
      * constructor.
      * by intros k d ?%elem_of_nil.
Qed.

Lemma X13_ranked_disjunction_witness :
  ∃ ranked,
    disjunction [Some [1; 3]; None; Some [2; 3]] true = Some (Ranked ranked)
    ∧ (∀ docID score,
         (docID, score) ∈ ranked
         ↔ 1 ≤ score
           ∧ score = length (filter (fun l => docID ∈ l)
                               (omap id [Some [1; 3]; None; Some [2; 3]])))
    ∧ StronglySorted
        (fun x y : nat * nat => y.2 < x.2 ∨ (x.2 = y.2 ∧ x.1 < y.1)) ranked.
Proof.
  apply (X13_ranked_disjunction [Some [1; 3]; None; Some [2; 3]]).
  - exists [1; 3]. by left.
  - intros l Hl.
    apply elem_of_cons in Hl as [[= ->]|Hl]; [repeat constructor; set_solver|].
    apply elem_of_cons in Hl as [?|Hl]; [done|].
    apply elem_of_cons in Hl as [[= ->]|Hl]; [repeat constructor; set_solver|].
    by apply elem_of_nil in Hl.
Defined.

(** ** BM25: which documents can be ranked *)

Section BM25_ranked.
Context {F : Type} `{PyFloat F}.

Lemma bm25_postings_ranked postingsList result collection (k1 b idf L_avg : F)
    rankedResults rankedResults' docID :
  bm25_postings postingsList result collection k1 b idf L_avg rankedResults
  = Ok rankedResults' →
  docID ∈ rankedResults'.*1 →
  docID ∈ rankedResults.*1
  ∨ (1 ≤ docID < length collection ∧ docID ∈ result
     ∧ ∃ tf, (docID, tf) ∈ postingsList).
Proof.
  revert rankedResults.
  induction postingsList as [|[d tf] rest IH]; intros rankedResults; simpl.
  { intros [= <-]. auto. }
  assert (∀ rr, bm25_postings rest result collection k1 b idf L_avg rr
                = Ok rankedResults' →
                docID ∈ rankedResults'.*1 →
                docID ∈ rr.*1
                ∨ (1 ≤ docID < length collection ∧ docID ∈ result
                   ∧ ∃ tf', (docID, tf') ∈ (d, tf) :: rest)) as IH'.
  { intros rr Hrest Hin.
    destruct (IH rr Hrest Hin) as [?|(? & ? & tf' & ?)]; [by left|].
    right. split; [done|]. split; [done|]. exists tf'. by right. }
  destruct (negb (d =? 0) && bool_decide (d ∈ result)) eqn:Hcand;
    [|apply IH'].
  apply andb_true_iff in Hcand as [Hd Hin%bool_decide_eq_true].
  apply negb_true_iff, Nat.eqb_neq in Hd.
  unfold py_index. destruct (collection !! d) as [doc|] eqn:Hdoc; [|done].
  apply lookup_lt_Some in Hdoc. simpl.
  destruct (bm25_score k1 b idf L_avg tf (length doc)) as [score|e]; [|done].
  simpl. intros Hrest Hdocs.
  destruct (IH' _ Hrest Hdocs) as [[Hold| ->]%dict_set_keys_elem_of|Hnew];
    [by left| |by right].
  right. split; [lia|]. split; [done|]. exists tf. by left.
Qed.

Lemma bm25_terms_ranked queryTerms result index collection (k1 b : F) N L_avg
    rankedResults rankedResults' docID :
  bm25_terms queryTerms result index collection k1 b N L_avg rankedResults
  = Ok rankedResults' →
  docID ∈ rankedResults'.*1 →
  docID ∈ rankedResults.*1
  ∨ (1 ≤ docID < length collection ∧ docID ∈ result
     ∧ ∃ term tf, term ∈ queryTerms
                  ∧ (docID, tf) ∈ default [] (index !! term)).
Proof.
  revert rankedResults.
  induction queryTerms as [|term rest IH]; intros rankedResults; simpl.
  { intros [= <-]. auto. }
  destruct (bm25_postings _ result collection k1 b _ L_avg rankedResults)
    as [rankedResults1|e] eqn:Hpostings; [|done].
  simpl. intros Hrest Hin.
  destruct (IH _ Hrest Hin) as [Hmid|(? & ? & term' & tf & ? & ?)].
  - destruct (bm25_postings_ranked _ _ _ _ _ _ _ _ _ _ Hpostings Hmid)
      as [?|(? & ? & tf & ?)]; [by left|].
    right. split; [done|]. split; [done|].
    exists term, tf. split; [by left|done].
  - right. split; [done|]. split; [done|].
    exists term', tf. split; [by right|done].
Qed.

(** X14.  A ranking that [bm25] returns is not empty, and lists a
    DocumentID once at most.  Every DocumentID in it is a candidate, has
    a posting under one of the query terms, and lies between 1 and the
    number of documents minus one: a document without a query term is
    never ranked, and neither is the document numbered last. *)
Theorem X14_bm25_ranks_matching_candidates queryTerms result index collection
    (k1 b : F) ranking :
  bm25 queryTerms result index collection k1 b = Ok (Some ranking) →
  ranking ≠ []
  ∧ NoDup (ranking.*1)
  ∧ ∀ docID, docID ∈ ranking.*1 →
      1 ≤ docID < length collection
      ∧ (∃ candidates, result = Some candidates ∧ docID ∈ candidates)
      ∧ ∃ term tf, term ∈ queryTerms
                   ∧ (docID, tf) ∈ default [] (index !! term).
Proof.
  unfold bm25. destruct (py_idiv _ _) as [L_avg|e]; [|done]. simpl.
  destruct result as [candidates|]; [|done].
  destruct (bm25_terms _ _ _ _ _ _ _ _ _) as [rankedResults|e] eqn:Hterms;
    [|done].
  simpl. destruct (forallb _ rankedResults) eqn:Hzero; [done|].
  intros [= <-]. split_and!.
  - intros Hnil.
    pose proof (py_sorted_Permutation (fun x y : nat * F => fltb y.2 x.2)
                  rankedResults) as Hperm.
    rewrite Hnil in Hperm. apply Permutation_nil in Hperm.
    by subst rankedResults.
  - rewrite py_sorted_Permutation.
    apply bm25_terms_keys in Hterms as [_ Hnd]. apply Hnd. constructor.
  - intros docID. rewrite py_sorted_Permutation. intros Hin.
    destruct (bm25_terms_ranked _ _ _ _ _ _ _ _ _ _ _ Hterms Hin)
      as [?%elem_of_nil|(? & ? & ?)]; [done|].
    split; [lia|]. split; [by eauto|done].
Qed.

End BM25_ranked.

Lemma X14_bm25_ranks_matching_candidates_witness :
  [(1, 0x1.9f323ecbf984cp-2%float); (2, 0x1.9f323ecbf984cp-2%float)] ≠ []
  ∧ NoDup ([(1, 0x1.9f323ecbf984cp-2%float); (2, 0x1.9f323ecbf984cp-2%float)].*1)
  ∧ ∀ docID,
      docID ∈ [(1, 0x1.9f323ecbf984cp-2%float); (2, 0x1.9f323ecbf984cp-2%float)].*1 →
      1 ≤ docID
          < length [["the"; "cat"; "sat"]; ["the"; "dog"; "sat"];
                    ["cat"; "and"; "dog"]]%string
      ∧ (∃ candidates, Some [1; 2] = Some candidates ∧ docID ∈ candidates)
      ∧ ∃ term tf, term ∈ ["cat"; "dog"]%string
                   ∧ (docID, tf)
                     ∈ default []
                         ((<["cat"%string := [(1, 1); (3, 1)]]>
                             (<["dog"%string := [(2, 1); (3, 1)]]> ∅)
                           : gmap string (list (nat * nat))) !! term).
Proof.
  apply (X14_bm25_ranks_matching_candidates ["cat"; "dog"]%string (Some [1; 2])
           (<["cat"%string := [(1, 1); (3, 1)]]>
              (<["dog"%string := [(2, 1); (3, 1)]]> ∅))
           [["the"; "cat"; "sat"]; ["the"; "dog"; "sat"]; ["cat"; "and"; "dog"]]%string
           1.5%float 0.75%float).
  vm_compute. reflexivity.
Defined.

(** ** The console: what the prompts accept *)

Import Console.

Section getK1B_facts.
Context {F : Type} `{PyFloat F}.
Variable float_of_string : string → option F.

Lemma getK1_spec inputs (out : list (line (F:=F))) k1 rest :
  getK1 float_of_string inputs = (out, Returns k1 rest) →
  fgeb k1 (of_int 0) = true
  ∧ length inputs = length out + 1 + length rest.
Proof.
  revert out. induction inputs as [|typed inputs IH]; intros out; simpl.
  { done. }
  destruct (float_of_string typed) as [x|].
  - destruct (fgeb x (of_int 0)) eqn:Hvalid.
    + intros [= <- <- <-]. split; [done|]. simpl. lia.
    + destruct (getK1 float_of_string inputs) as [out' r].
      intros [= <- ->]. destruct (IH out' eq_refl) as [? Hlen].
      split; [done|]. simpl. lia.
  - destruct (getK1 float_of_string inputs) as [out' r].
    intros [= <- ->]. destruct (IH out' eq_refl) as [? Hlen].
    split; [done|]. simpl. lia.
Qed.

Lemma getB_spec inputs (out : list (line (F:=F))) b rest :
  getB float_of_string inputs = (out, Returns b rest) →
  fleb (of_int 0) b = true ∧ fleb b (of_int 1) = true
  ∧ length inputs = length out + 1 + length rest.
Proof.
  revert out. induction inputs as [|typed inputs IH]; intros out; simpl.
  { done. }
  destruct (float_of_string typed) as [x|].
  - destruct (fleb (of_int 0) x && fleb x (of_int 1)) eqn:Hvalid.
    + intros [= <- <- <-]. apply andb_true_iff in Hvalid as [? ?].
      split_and!; [done..|]. simpl. lia.
    + destruct (getB float_of_string inputs) as [out' r].
      intros [= <- ->]. destruct (IH out' eq_refl) as (? & ? & Hlen).
      split_and!; [done..|]. simpl. lia.
  - destruct (getB float_of_string inputs) as [out' r].
    intros [= <- ->]. destruct (IH out' eq_refl) as (? & ? & Hlen).
    split_and!; [done..|]. simpl. lia.
Qed.

Lemma getK1_fails inputs (out : list (line (F:=F))) f :
  getK1 float_of_string inputs = (out, Fails f) → f = EOFError.
Proof.
  revert out. induction inputs as [|typed inputs IH]; intros out; simpl.
  { by intros [= _ <-]. }
  destruct (float_of_string typed) as [x|]; [destruct (fgeb x (of_int 0))|];
    try done; destruct (getK1 float_of_string inputs) as [out' r];
    intros [= _ ->]; by eapply IH.
Qed.

Lemma getB_fails inputs (out : list (line (F:=F))) f :
  getB float_of_string inputs = (out, Fails f) → f = EOFError.
Proof.
  revert out. induction inputs as [|typed inputs IH]; intros out; simpl.
  { by intros [= _ <-]. }
  destruct (float_of_string typed) as [x|];
    [destruct (fleb (of_int 0) x && fleb x (of_int 1))|];
    try done; destruct (getB float_of_string inputs) as [out' r];
    intros [= _ ->]; by eapply IH.
Qed.

(** X15.  The parameters [getK1B] returns have passed its tests,
    [k1 >= 0] and [0 <= b <= 1]; it has printed one line for every typed
    line it turned down and has read two lines more than those.  The
    only way it fails is the input running out. *)
Theorem X15_getK1B_validates inputs :
  (∀ (out : list (line (F:=F))) k1 b rest,
     getK1B float_of_string inputs = (out, Returns (k1, b) rest) →
     fgeb k1 (of_int 0) = true
     ∧ fleb (of_int 0) b = true ∧ fleb b (of_int 1) = true
     ∧ length inputs = length out + 2 + length rest)
  ∧ (∀ (out : list (line (F:=F))) f,
       getK1B float_of_string inputs = (out, Fails f) → f = EOFError).
Proof.
  unfold getK1B, cbind, cret. split.
  - intros out k1 b rest.
    destruct (getK1 float_of_string inputs) as [out1 [x rest1|f]] eqn:Hk1;
      [|done].
    destruct (getB float_of_string rest1) as [out2 [y rest2|f]] eqn:Hb;
      [|done].
    intros [= <- <- <- <-].
    apply getK1_spec in Hk1 as [? Hlen1].
    apply getB_spec in Hb as (? & ? & Hlen2).
    split_and!; [done..|]. rewrite app_nil_r, length_app. lia.
  - intros out f.
    destruct (getK1 float_of_string inputs) as [out1 [x rest1|f1]] eqn:Hk1.
    + destruct (getB float_of_string rest1) as [out2 [y rest2|f2]] eqn:Hb;
        [done|].
      intros [= _ <-]. by eapply getB_fails.
    + intros [= _ <-]. by eapply getK1_fails.
Qed.

End getK1B_facts.

Section prompt_facts.
Context {F : Type}.

(** X16.  [getOperation] returns the first typed line that is [AND] or
    [OR], after one complaint for each line before it, and leaves the
    lines after it unread. *)
Theorem X16_getOperation_first_valid inputs (out : list (line (F:=F)))
    operation rest :
  getOperation inputs = (out, Returns operation rest)
  ↔ ∃ rejected,
      inputs = rejected ++ operation :: rest
      ∧ (operation = "AND"%string ∨ operation = "OR"%string)
      ∧ Forall (fun typed => typed ≠ "AND"%string ∧ typed ≠ "OR"%string) rejected
      ∧ out = BadOperation <$> rejected.
Proof.
  revert out. induction inputs as [|typed inputs IH]; intros out; simpl.
  { split; [done|]. by intros ([|? ?] & ? & _). }
  destruct (bool_decide (typed ∈ ["AND"; "OR"]%string)) eqn:Hvalid.
  - apply bool_decide_eq_true in Hvalid.
    assert (typed = "AND"%string ∨ typed = "OR"%string) as Htyped by set_solver.
    split.
    + intros [= <- <- <-]. exists []. by repeat split.
    + intros ([|r0 rejected] & Heq & _ & Hrej & ->).
      * by injection Heq as -> ->.
      * injection Heq as -> _. apply Forall_cons in Hrej as [[? ?] _].
        by destruct Htyped.
  - apply bool_decide_eq_false in Hvalid.
    assert (typed ≠ "AND"%string ∧ typed ≠ "OR"%string) as Htyped by set_solver.
    destruct (getOperation inputs) as [out' r] eqn:Hrest. split.
    + intros [= <- ->]. destruct (proj1 (IH out') eq_refl)
        as (rejected & -> & Hop & Hrej & ->).
      exists (typed :: rejected). split_and!; [done|done| |done].
      by constructor.
    + intros ([|r0 rejected] & Heq & Hop & Hrej & ->).
      * injection Heq as -> _. destruct Htyped. by destruct Hop.
      * injection Heq as <- ->. apply Forall_cons in Hrej as [_ Hrej].
        assert ((out', r) = (BadOperation <$> rejected, Returns operation rest))
          as [= -> ->]; [|done].
        apply IH. by exists rejected.
Qed.

(** X17.  The flags [getRanking] returns are never both set; query-term
    ranking is only granted when the operation is [OR], and BM25 only
    when the spimi index is there and not empty. *)
Theorem X17_getRanking_compatible {V} (operation : option string)
    (spimiIndex : option (gmap string V)) inputs (out : list (line (F:=F)))
    queryTermRank bm25 rest :
  getRanking operation spimiIndex inputs
  = (out, Returns (queryTermRank, bm25) rest) →
  (queryTermRank = true → bm25 = false)
  ∧ (queryTermRank = true → operation = Some "OR"%string)
  ∧ (bm25 = true → index_truthy spimiIndex = true).
Proof.
  revert out. induction inputs as [|answer inputs IH]; intros out; simpl.
  { done. }
  destruct (getRanking operation spimiIndex inputs) as [out' r] eqn:Hrest.
  destruct (bool_decide (answer ∈ ["q"; "b"; "n"]%string)) eqn:Hvalid.
  - destruct (String.eqb answer "q") eqn:Hq; simpl.
    + apply String.eqb_eq in Hq as ->.
      destruct (bool_decide (operation = Some "OR"%string)) eqn:Hor; simpl.
      * apply bool_decide_eq_true in Hor. intros [= <- <- <- <-]. done.
      * intros [= <- ->]. by eapply IH.
    + destruct (String.eqb answer "b") eqn:Hb; simpl.
      * destruct (index_truthy spimiIndex) eqn:Htruthy; simpl.
        -- intros [= <- <- <- <-]. done.
        -- intros [= <- ->]. by eapply IH.
      * intros [= <- <- <- <-]. done.
  - intros [= <- ->]. by eapply IH.
Qed.

End prompt_facts.

Section getIndexes_facts.
Context {F S N : Type}.

Lemma getIndexes_answer_spec inputs (out : list (line (F:=F))) answer rest :
  getIndexes_answer inputs = (out, Returns answer rest)
  ↔ ∃ rejected,
      inputs = rejected ++ answer :: rest
      ∧ answer ∈ ["n"; "s"; "b"]%string
      ∧ Forall (fun typed => typed ∉ ["n"; "s"; "b"]%string) rejected
      ∧ out = BadAnswer <$> rejected.
Proof.
  revert out. induction inputs as [|typed inputs IH]; intros out; simpl.
  { split; [done|]. by intros ([|? ?] & ? & _). }
  destruct (bool_decide (typed ∈ ["n"; "s"; "b"]%string)) eqn:Hvalid.
  - apply bool_decide_eq_true in Hvalid. split.
    + intros [= <- <- <-]. exists []. by repeat split.
    + intros ([|r0 rejected] & Heq & _ & Hrej & ->).
      * by injection Heq as -> ->.
      * injection Heq as -> _. by apply Forall_cons in Hrej as [? _].
  - apply bool_decide_eq_false in Hvalid.
    destruct (getIndexes_answer inputs) as [out' r] eqn:Hrest. split.
    + intros [= <- ->]. destruct (proj1 (IH out') eq_refl)
        as (rejected & -> & Hop & Hrej & ->).
      exists (typed :: rejected). split_and!; [done|done| |done].
      by constructor.
    + intros ([|r0 rejected] & Heq & Hop & Hrej & ->).
      * injection Heq as -> _. done.
      * injection Heq as <- ->. apply Forall_cons in Hrej as [_ Hrej].
        assert ((out', r) = (BadAnswer <$> rejected, Returns answer rest))
          as [= -> ->]; [|done].
        apply IH. by exists rejected.
Qed.

(** X18.  [getIndexes] acts on the first typed line that is [n], [s]
    or [b], after one complaint for each line before it: [s] selects
    the spimi index alone, [n] the naive index alone, [b] both, and an
    index that is not selected comes back as [None]. *)
Theorem X18_getIndexes_selection (spimiIndex : option S) (naiveIndex : option N)
    inputs (out : list (line (F:=F))) selected rest :
  getIndexes spimiIndex naiveIndex inputs = (out, Returns selected rest)
  ↔ ∃ rejected answer,
      inputs = rejected ++ answer :: rest
      ∧ Forall (fun typed => typed ∉ ["n"; "s"; "b"]%string) rejected
      ∧ out = BadAnswer <$> rejected
      ∧ (answer = "s"%string ∧ selected = (spimiIndex, None)
         ∨ answer = "n"%string ∧ selected = (None, naiveIndex)
         ∨ answer = "b"%string ∧ selected = (spimiIndex, naiveIndex)).
Proof.
  unfold getIndexes, cbind.
  destruct (getIndexes_answer inputs) as [out' [answer rest'|f]] eqn:Hanswer.
  - apply getIndexes_answer_spec in Hanswer
      as (rejected & -> & Hvalid & Hrej & ->).
    assert (∀ rejected' answer',
              rejected ++ answer :: rest' = rejected' ++ answer' :: rest →
              Forall (fun typed => typed ∉ ["n"; "s"; "b"]%string) rejected' →
              answer' ∈ ["n"; "s"; "b"]%string →
              rejected' = rejected ∧ answer' = answer ∧ rest = rest') as Hunique.
    { clear -Hvalid Hrej. induction rejected as [|r0 rejected IH];
        intros [|r1 rejected'] answer' Heq Hrej' Hvalid'; simpl in Heq.
      - by injection Heq as -> ->.
      - injection Heq as -> _. by apply Forall_cons in Hrej' as [? _].
      - injection Heq as -> _. by apply Forall_cons in Hrej as [? _].
      - injection Heq as -> Heq. apply Forall_cons in Hrej as [_ Hrej].
        apply Forall_cons in Hrej' as [_ Hrej'].
        destruct (IH Hrej _ _ Heq Hrej' Hvalid') as (-> & -> & ->). done. }
    assert (answer = "s" ∨ answer = "n" ∨ answer = "b")%string
      as Hcases by set_solver.
    split.
    + intros Hrun. exists rejected, answer.
      destruct Hcases as [-> | [-> | ->]]; simpl in Hrun;
        injection Hrun as <- <- <-; rewrite app_nil_r;
        split_and!; try done; auto.
    + intros (rejected' & answer' & Heq & Hrej' & -> & Hsel).
      assert (answer' ∈ ["n"; "s"; "b"]%string) as Hvalid'.
      { destruct Hsel as [[-> _]|[[-> _]|[-> _]]]; set_solver. }
      destruct (Hunique _ _ Heq Hrej' Hvalid') as (-> & -> & ->).
      destruct Hsel as [[-> ->]|[[-> ->]|[-> ->]]]; simpl;
        by rewrite app_nil_r.
  - split; [done|].
    intros (rejected & answer & -> & Hrej & -> & Hsel).
    assert (getIndexes_answer (F:=F) (rejected ++ answer :: rest)
            = (BadAnswer <$> rejected, Returns answer rest)) as Hrun.
    { apply getIndexes_answer_spec. exists rejected. split_and!; try done.
      destruct Hsel as [[-> _]|[[-> _]|[-> _]]]; set_solver. }
    congruence.
Qed.

End getIndexes_facts.

(** ** [queryTest] *)

Lemma conjunction_returns postingsLists :
  postingsLists ≠ [] → ∃ result, conjunction postingsLists = Ok result.
Proof.
  intros Hne. destruct (decide (None ∈ postingsLists)) as [Hnone|Hnone].
  { exists None. unfold conjunction. by rewrite decide_True. }
  rewrite conjunction_present by done.
  pose proof (py_sorted_Permutation
                (fun a b : list nat => length a <? length b)
                (omap id postingsLists)) as Hperm.
  destruct (py_sorted _ (omap id postingsLists)) as [|first others]; [|by eauto].
  apply Permutation_nil in Hperm. by apply omap_id_nil in Hperm.
Qed.

Lemma convertPostingsLists_lookup (index : gmap string (list (nat * nat)))
    (queryTerms : list string) :
  convertPostingsLists ((fun term => index !! term) <$> queryTerms)
  = (fun term => bare index !! term) <$> queryTerms.
Proof.
  unfold convertPostingsLists, bare. rewrite <-list_fmap_compose.
  apply list_fmap_ext. intros _ term _. simpl. by rewrite lookup_fmap.
Qed.

Section queryTest_facts.
Context {F : Type} `{PyFloat F}.
Variable tokenizer : string → list string.
Variable float_of_string : string → option F.

Lemma combine_returns postingsLists operation queryTermRanking :
  postingsLists ≠ [] →
  ∃ result : option (answer (F:=F)),
    combine postingsLists operation queryTermRanking = Ok result.
Proof.
  intros Hne. unfold combine.
  destruct (bool_decide (operation = Some "AND"%string)).
  - destruct (conjunction_returns postingsLists Hne) as [r ->]. eauto.
  - destruct (bool_decide (operation = Some "OR"%string)); eauto.
Qed.

Lemma naive_result_returns queryTerms naiveIndex operation queryTermRanking :
  queryTerms ≠ [] →
  ∃ result : option (answer (F:=F)),
    naive_result queryTerms naiveIndex operation queryTermRanking = Ok result.
Proof.
  intros Hne. unfold naive_result.
  destruct queryTerms as [|term [|term' rest]]; [done|by eauto|].
  by apply combine_returns.
Qed.

Lemma report_prints found query operation ranking
    (result : option (answer (F:=F))) inputs :
  report found query operation ranking result inputs
  = ([report_line found query operation ranking result], Returns () inputs).
Proof. done. Qed.

(** The naive half of [queryTest] always comes back, with the input
    untouched. *)
Lemma naive_half_returns queryTerms query naiveIndex operation queryTermRanking
    inputs :
  queryTerms ≠ [] →
  ∃ out,
    match naiveIndex with
    | Some index =>
        if index_truthy naiveIndex
        then
          cbind (print NaiveHeader) (fun _ =>
          cbind (raise_of (naive_result queryTerms index operation
                             queryTermRanking)) (fun result =>
          report (F:=F) NaiveFound query operation
            (if queryTermRanking then QueryTermRanking else NoRanking)
            result))
        else cret ()
    | None => cret ()
    end inputs = (out, Returns () inputs).
Proof.
  intros Hne. destruct naiveIndex as [index|]; [|by eexists].
  destruct (index_truthy (Some index)); [|by eexists].
  destruct (naive_result_returns queryTerms index operation queryTermRanking Hne)
    as [result Hresult].
  unfold cbind, print, raise_of. rewrite Hresult, report_prints.
  by eexists.
Qed.

Lemma spimi_result_without_bm25 queryTerms spimiIndex collection operation
    queryTermRanking bm25Ranking inputs :
  queryTerms ≠ [] →
  bm25Ranking = false ∨ length queryTerms = 1 →
  ∃ result,
    spimi_result float_of_string queryTerms spimiIndex collection operation
      queryTermRanking bm25Ranking inputs
    = ([], Returns result inputs).
Proof.
  intros Hne Hcase. unfold spimi_result.
  destruct queryTerms as [|term [|term' rest]]; [done|by eexists|].
  destruct Hcase as [->|?]; [|done].
  destruct (combine_returns
              (convertPostingsLists
                 ((fun term => spimiIndex !! term) <$> term :: term' :: rest))
              operation queryTermRanking) as [result Hresult]; [done|].
  unfold cbind, raise_of. rewrite Hresult. simpl. by eexists.
Qed.

(** X19.  Unless BM25 is asked for on a query of two terms or more,
    [queryTest] reads nothing from the terminal and raises nothing: it
    prints its lines and returns. *)
Theorem X19_queryTest_returns query spimiIndex naiveIndex collection operation
    queryTermRanking bm25Ranking inputs :
  bm25Ranking = false ∨ length (tokenizer query) = 1 →
  ∃ out,
    queryTest tokenizer float_of_string query spimiIndex naiveIndex collection
      operation queryTermRanking bm25Ranking inputs
    = (out, Returns () inputs).
Proof.
  intros Hcase. unfold queryTest.
  destruct (length (tokenizer query) =? 0) eqn:Hempty; [by eexists|].
  assert (tokenizer query ≠ []) as Hne.
  { intros Hnil. rewrite Hnil in Hempty. done. }
  unfold cbind at 1.
  destruct (naive_half_returns (tokenizer query) query naiveIndex operation
              queryTermRanking inputs Hne) as [out1 ->].
  destruct spimiIndex as [index|]; [|by eexists].
  destruct (index_truthy (Some index)); [|by eexists].
  destruct (spimi_result_without_bm25 (tokenizer query) index collection
              operation queryTermRanking bm25Ranking inputs Hne Hcase)
    as [result Hresult].
  unfold cbind, print. rewrite Hresult, report_prints.
  by eexists.
Qed.

(** X20.  With the two indexes the builders make of one corpus, and no
    BM25, [queryTest] reports one and the same result twice for a query
    of two terms or more, the result of the boolean combination on the
    naive index: under the naive header and under the spimi header it
    prints the same query, operation, ranking label, size and postings
    list, each in the format of its index (the two formats differ by
    one space), or it prints the no-results line under both. *)
Theorem X20_queryTest_indexes_agree tokensList testCount spimiIndex naiveIndex
    query collection operation queryTermRanking inputs :
  spimi tokensList testCount = Ok spimiIndex →
  naive tokensList testCount = Ok naiveIndex →
  spimiIndex ≠ ∅ →
  2 ≤ length (tokenizer query) →
  ∃ result : option (answer (F:=F)),
    naive_result (tokenizer query) naiveIndex operation queryTermRanking
    = Ok result
    ∧ queryTest tokenizer float_of_string query (Some spimiIndex)
        (Some naiveIndex) collection operation queryTermRanking false inputs
      = ([NaiveHeader;
          report_line NaiveFound query operation
            (if queryTermRanking then QueryTermRanking else NoRanking) result;
          SpimiHeader;
          report_line SpimiFound query operation
            (if queryTermRanking then QueryTermRanking else NoRanking) result],
         Returns () inputs).
Proof.
  intros Hspimi Hnaive Hnonempty Hlen.
  destruct (builders_lookup tokensList testCount)
    as (si & ni & Hsi & Hni & -> & _).
  rewrite Hspimi in Hsi. injection Hsi as <-.
  rewrite Hnaive in Hni. injection Hni as ->.
  unfold queryTest.
  destruct (tokenizer query) as [|term [|term' terms]] eqn:Hterms;
    [simpl in Hlen; lia..|].
  simpl length. simpl Nat.eqb. cbv iota.
  assert (index_truthy (Some (bare spimiIndex)) = true) as ->.
  { simpl. apply negb_true_iff, bool_decide_eq_false.
    unfold bare. by intros ?%fmap_empty_inv. }
  assert (index_truthy (Some spimiIndex) = true) as ->.
  { simpl. by apply negb_true_iff, bool_decide_eq_false. }
  unfold naive_result, spimi_result.
  rewrite convertPostingsLists_lookup.
  destruct (combine_returns
              ((fun term => bare spimiIndex !! term) <$> term :: term' :: terms)
              operation queryTermRanking) as [result Hresult]; [done|].
  exists result. split; [done|].
  unfold cbind, report, print, raise_of, cret. rewrite Hresult. simpl.
  by destruct queryTermRanking.
Qed.

(** X21.  With the index [spimi] makes of the collection, an [OR] query
    of two terms or more with BM25 never gets to print its result when
    one of its terms occurs in the last document of the collection: the
    scorer reads past the end of the collection and [queryTest] ends in
    an exception, as soon as [k1] and [b] have been typed. *)
Theorem X21_queryTest_bm25_last_document collection index naiveIndex query
    term doc inputs (out0 : list (line (F:=F))) k1 b rest :
  spimi collection None = Ok index →
  2 ≤ length (tokenizer query) →
  term ∈ tokenizer query →
  last collection = Some doc → term ∈ doc →
  getK1B float_of_string inputs = (out0, Returns (k1, b) rest) →
  ∃ out e,
    queryTest tokenizer float_of_string query (Some index) naiveIndex
      collection (Some "OR"%string) false true inputs
    = (out, Fails (Exception e)).
Proof.
  intros Hspimi Hlen Hterm Hlast Hdoc HK1B.
  destruct (builders_lookup collection None) as (si & _ & Hsi & _ & _ & Hinv).
  rewrite Hspimi in Hsi. injection Hsi as <-. simpl in Hinv.
  (* the last document is numbered [length collection] *)
  rewrite last_lookup in Hlast.
  assert (1 ≤ length collection) as HN.
  { apply lookup_lt_Some in Hlast. lia. }
  assert ((term, length collection) ∈ occurrences 1 collection) as Hocc.
  { apply occurrences_elem_of. split; [done|]. exists doc. split; [|done].
    by replace (length collection - 1) with (pred (length collection)) by lia. }
  assert (is_Some (index !! term)) as [pl Hpl].
  { apply (inv_keys _ _ Hinv), elem_of_keys. eauto. }
  pose proof Hocc as Hposting. apply (inv_docs _ _ Hinv _ _ _ Hpl) in Hposting.
  apply list_elem_of_fmap in Hposting as ([d tf] & Hd & Hposting).
  simpl in Hd. subst d.
  (* the disjunction holds that number *)
  destruct (disjunction_spec
              ((fun term => bare index !! term) <$> tokenizer query))
    as (union & Hunion & _ & Hin).
  { exists (pl.*1). apply list_elem_of_fmap. exists term. split; [|done].
    unfold bare. by rewrite lookup_fmap, Hpl. }
  assert (length collection ∈ union) as Hcand.
  { apply Hin. exists (pl.*1). split.
    - apply list_elem_of_fmap. exists term. split; [|done].
      unfold bare. by rewrite lookup_fmap, Hpl.
    - apply list_elem_of_fmap. by exists (length collection, tf). }
  destruct (bm25_raises (tokenizer query) union index collection k1 b term pl tf)
    as [e Hraise]; [done..|].
  (* the run of [queryTest] *)
  unfold queryTest.
  destruct (length (tokenizer query) =? 0) eqn:Hempty.
  { apply Nat.eqb_eq in Hempty. lia. }
  assert (tokenizer query ≠ []) as Hne.
  { intros Hnil. rewrite Hnil in Hlen. simpl in Hlen. lia. }
  unfold cbind at 1.
  destruct (naive_half_returns (tokenizer query) query naiveIndex
              (Some "OR"%string) false inputs Hne) as [out1 ->].
  assert (index_truthy (Some index) = true) as ->.
  { simpl. apply negb_true_iff, bool_decide_eq_false. intros ->.
    by rewrite lookup_empty in Hpl. }
  unfold spimi_result.
  destruct (tokenizer query) as [|t1 [|t2 terms]] eqn:Hterms;
    [simpl in Hlen; lia..|].
  rewrite convertPostingsLists_lookup.
  unfold combine. rewrite bool_decide_eq_false_2 by done.
  rewrite bool_decide_eq_true_2 by done. rewrite Hunion.
  unfold cbind, print, raise_of, cret. simpl fmap.
  assert (truthy (F:=F) (Some (Ids union)) = true) as Htruthy.
  { simpl. apply negb_true_iff, Nat.eqb_neq.
    destruct union; [by apply elem_of_nil in Hcand|done]. }
  change (of_postings <$> Some (Unranked union)) with (Some (Ids (F:=F) union)).
  rewrite Htruthy. change (true && true) with true. cbv beta iota.
  rewrite HK1B. simpl candidates. simpl fst. simpl snd.
  rewrite Hraise. by eexists _, _.
Qed.

End queryTest_facts.

Lemma X17_getRanking_compatible_witness :
  (true = true → false = false)
  ∧ (true = true → Some "OR"%string = Some "OR"%string)
  ∧ (false = true → index_truthy (None : option (gmap string nat)) = true).
Proof.
  apply (X17_getRanking_compatible (F:=float) (Some "OR"%string) None
           ["b"; "x"; "q"; "n"]%string [Bm25NeedsSpimi; BadAnswer "x"%string]
           true false ["n"%string]).
  vm_compute. reflexivity.
Defined.

Lemma X19_queryTest_returns_witness :
  ∃ out,
    queryTest (F:=float) String.words (fun _ => None) "cat"%string
      (Some (<["cat"%string := [(1, 1); (3, 1)]]> ∅)) None
      [["the"; "cat"; "sat"]; ["the"; "dog"; "sat"]; ["cat"; "and"; "dog"]]%string
      None false true ["1.5"%string]
    = (out, Returns () ["1.5"%string]).
Proof.
  apply (X19_queryTest_returns (F:=float) String.words (fun _ => None)
           "cat"%string (Some (<["cat"%string := [(1, 1); (3, 1)]]> ∅)) None
           [["the"; "cat"; "sat"]; ["the"; "dog"; "sat"]; ["cat"; "and"; "dog"]]%string
           None false true ["1.5"%string]).
  right. vm_compute. reflexivity.
Defined.

Lemma X20_queryTest_indexes_agree_witness :
  ∃ result : option (answer (F:=float)),
    naive_result (String.words "cat dog")
      (<["cat"%string := [1; 2]]> (<["dog"%string := [2]]> ∅))
      (Some "AND"%string) false
    = Ok result
    ∧ queryTest String.words (fun _ => None) "cat dog"%string
        (Some (<["cat"%string := [(1, 1); (2, 1)]]>
                 (<["dog"%string := [(2, 2)]]> ∅)))
        (Some (<["cat"%string := [1; 2]]> (<["dog"%string := [2]]> ∅)))
        [["cat"]; ["dog"; "cat"; "dog"]]%string (Some "AND"%string) false false []
      = ([NaiveHeader;
          report_line NaiveFound "cat dog"%string (Some "AND"%string)
            (if false then QueryTermRanking else NoRanking) result;
          SpimiHeader;
          report_line SpimiFound "cat dog"%string (Some "AND"%string)
            (if false then QueryTermRanking else NoRanking) result],
         Returns () []).
Proof.
  apply (X20_queryTest_indexes_agree (F:=float) String.words (fun _ => None)
           [["cat"]; ["dog"; "cat"; "dog"]]%string None
           (<["cat"%string := [(1, 1); (2, 1)]]>
              (<["dog"%string := [(2, 2)]]> ∅))
           (<["cat"%string := [1; 2]]> (<["dog"%string := [2]]> ∅))
           "cat dog"%string [["cat"]; ["dog"; "cat"; "dog"]]%string
           (Some "AND"%string) false []).
  - vm_compute. reflexivity.
  - vm_compute. reflexivity.
  - apply insert_non_empty.
  - vm_compute. lia.
Defined.

Lemma X21_queryTest_bm25_last_document_witness :
  ∃ out e,
    queryTest String.words
      (fun typed => if String.eqb typed "1.5" then Some 1.5%float
                    else if String.eqb typed "0.75" then Some 0.75%float
                    else None)
      "cat dog"%string
      (Some (<["cat"%string := [(1, 1); (2, 1)]]>
               (<["dog"%string := [(2, 2)]]> ∅)))
      None [["cat"]; ["dog"; "cat"; "dog"]]%string (Some "OR"%string)
      false true ["1.5"; "0.75"]%string
    = (out, Fails (Exception e)).
Proof.
  apply (X21_queryTest_bm25_last_document String.words
           (fun typed => if String.eqb typed "1.5" then Some 1.5%float
                         else if String.eqb typed "0.75" then Some 0.75%float
                         else None)
           [["cat"]; ["dog"; "cat"; "dog"]]%string
           (<["cat"%string := [(1, 1); (2, 1)]]>
              (<["dog"%string := [(2, 2)]]> ∅))
           None "cat dog"%string "dog"%string ["dog"; "cat"; "dog"]%string
           ["1.5"; "0.75"]%string [] 1.5%float 0.75%float []).
  - vm_compute. reflexivity.
  - vm_compute. lia.
  - vm_compute. right. left.
  - reflexivity.
  - left.
  - vm_compute. reflexivity.
Defined.
